(** * goxml2json: the tree-to-JSON encoder and its string sanitiser

    A shallow embedding of [encoder.go] (package [xml2json]) together with
    the properties of the encoder that the specification states.

    Go strings are byte sequences, so they are modelled as [list byte];
    a [rune] and a [uint8] are modelled as [Z] (the only place where the
    width of [int32] matters, the mask trick of [utf8.DecodeRuneInString],
    has its wrap-around written out). *)

From Stdlib Require Import Strings.String Strings.Byte.
From Stdlib Require Import List ZArith Lia Bool Arith.
From Stdlib Require Import Sorting.Sorted Sorting.Permutation.
From Equations Require Import Equations.
Import ListNotations.

Open Scope Z_scope.

(** ** Go strings *)

Definition gostring := list byte.

(** A string literal of the source, as the bytes it denotes. *)
Definition str (s : string) : gostring := list_byte_of_string s.

Definition byte_val (b : byte) : Z := Z.of_N (Byte.to_N b).

(** [s[k]] as a [uint8].  Every use below is guarded by a length test, as
    in the source; see [hex_index_in_range] for the table lookups. *)
Definition byte_at (s : gostring) (k : nat) : Z := byte_val (nth k s x00).

(** [s[a:b]] *)
Definition slice (s : gostring) (a b : nat) : gostring :=
  firstn (b - a) (skipn a s).

Definition quote : byte := x22.
Definition backslash : byte := x5c.
Definition newline : byte := x0a.

(** ** unicode/utf8 (Go standard library) *)

Module utf8.

Definition RuneError : Z := 0xFFFD.
Definition RuneSelf : Z := 0x80.

Definition maskx : Z := 0x3F.
Definition mask2 : Z := 0x1F.
Definition mask3 : Z := 0x0F.
Definition mask4 : Z := 0x07.

Definition locb : Z := 0x80.
Definition hicb : Z := 0xBF.

Definition xx : Z := 0xF1.
Definition as_ : Z := 0xF0.
Definition s1 : Z := 0x02.
Definition s2 : Z := 0x13.
Definition s3 : Z := 0x03.
Definition s4 : Z := 0x23.
Definition s5 : Z := 0x34.
Definition s6 : Z := 0x04.
Definition s7 : Z := 0x44.

(** [first] is information about the first byte in a UTF-8 sequence. *)
Definition first : list Z :=
  repeat as_ 128 ++                                          (* 0x00-0x7F *)
  repeat xx 64 ++                                            (* 0x80-0xBF *)
  [xx; xx; s1; s1; s1; s1; s1; s1; s1; s1; s1; s1; s1; s1; s1; s1] ++ (* 0xC0-0xCF *)
  repeat s1 16 ++                                            (* 0xD0-0xDF *)
  [s2; s3; s3; s3; s3; s3; s3; s3; s3; s3; s3; s3; s3; s4; s3; s3] ++ (* 0xE0-0xEF *)
  [s5; s6; s6; s6; s7; xx; xx; xx; xx; xx; xx; xx; xx; xx; xx; xx].   (* 0xF0-0xFF *)

Record acceptRange := { lo : Z; hi : Z }.

(** A [[16]acceptRange]: the entries after the fifth are zero values. *)
Definition acceptRanges : list acceptRange :=
  [ {| lo := locb; hi := hicb |};
    {| lo := 0xA0; hi := hicb |};
    {| lo := locb; hi := 0x9F |};
    {| lo := 0x90; hi := hicb |};
    {| lo := locb; hi := 0x8F |} ] ++ repeat {| lo := 0; hi := 0 |} 11.

(** Conversion of an integer to [int32], by wrap-around. *)
Definition int32 (z : Z) : Z := (z + 2 ^ 31) mod 2 ^ 32 - 2 ^ 31.

Definition DecodeRuneInString (s : gostring) : Z * nat :=
  let n := length s in
  if (n <? 1)%nat then (RuneError, 0%nat) else
  let s0 := byte_at s 0 in
  let x := nth (Z.to_nat s0) first 0 in
  if as_ <=? x then
    let mask := Z.shiftr (int32 (Z.shiftl x 31)) 31 in
    (Z.lor (Z.ldiff s0 mask) (Z.land RuneError mask), 1%nat)
  else
    let sz := Z.to_nat (Z.land x 7) in
    let accept := nth (Z.to_nat (Z.shiftr x 4)) acceptRanges {| lo := 0; hi := 0 |} in
    if (n <? sz)%nat then (RuneError, 1%nat) else
    let s1 := byte_at s 1 in
    if (s1 <? lo accept) || (hi accept <? s1) then (RuneError, 1%nat) else
    if (sz <=? 2)%nat then
      (Z.lor (Z.shiftl (Z.land s0 mask2) 6) (Z.land s1 maskx), 2%nat)
    else
    let s2 := byte_at s 2 in
    if (s2 <? locb) || (hicb <? s2) then (RuneError, 1%nat) else
    if (sz <=? 3)%nat then
      (Z.lor (Z.lor (Z.shiftl (Z.land s0 mask3) 12)
                    (Z.shiftl (Z.land s1 maskx) 6))
             (Z.land s2 maskx), 3%nat)
    else
    let s3 := byte_at s 3 in
    if (s3 <? locb) || (hicb <? s3) then (RuneError, 1%nat) else
    (Z.lor (Z.lor (Z.lor (Z.shiftl (Z.land s0 mask4) 18)
                         (Z.shiftl (Z.land s1 maskx) 12))
                  (Z.shiftl (Z.land s2 maskx) 6))
           (Z.land s3 maskx), 4%nat).

End utf8.

(** ** The string sanitiser *)

Definition hex : gostring := str "0123456789abcdef".

(** [hex[k]] *)
Definition hex_at (k : Z) : byte := nth (Z.to_nat k) hex x00.

(** The [switch b] of [sanitiseString]: what is written for an ASCII byte
    that is not copied verbatim. *)
Definition escape_byte (b : byte) : gostring :=
  if (byte_val b =? 0x5C) || (byte_val b =? 0x22) then [backslash; b]
  else if byte_val b =? 0x0A then [backslash; "n"%byte]
  else if byte_val b =? 0x0D then [backslash; "r"%byte]
  else if byte_val b =? 0x09 then [backslash; "t"%byte]
  else backslash :: str "u00" ++ [hex_at (Z.shiftr (byte_val b) 4);
                       hex_at (Z.land (byte_val b) 0xF)].

(** [if start < i { buf.WriteString(s[start:i]) }] *)
Definition flush (s : gostring) (start i : nat) (buf : gostring) : gostring :=
  if (start <? i)%nat then buf ++ slice s start i else buf.

(** The body of the [for] loop of [sanitiseString], from the loop test on,
    followed by the statements after the loop. *)
Equations? sanitise_loop (s : gostring) (i start : nat) (buf : gostring)
  : gostring by wf (length s - i)%nat lt :=
  sanitise_loop s i start buf with lt_dec i (length s) => {
    | right _ :=
        let buf := if (start <? length s)%nat
                   then buf ++ skipn start s else buf in
        buf ++ [quote]
    | left Hlt :=
        let b := nth i s x00 in
        if byte_val b <? utf8.RuneSelf then
          if (0x20 <=? byte_val b) && negb (byte_val b =? 0x5C)
             && negb (byte_val b =? 0x22) && negb (byte_val b =? 0x3C)
             && negb (byte_val b =? 0x3E) && negb (byte_val b =? 0x26)
          then sanitise_loop s (i + 1) start buf
          else
            let buf := flush s start i buf in
            let buf := buf ++ escape_byte b in
            sanitise_loop s (i + 1) (i + 1) buf
        else
          let c := fst (utf8.DecodeRuneInString (skipn i s)) in
          let size := snd (utf8.DecodeRuneInString (skipn i s)) in
          if (c =? utf8.RuneError) && (size =? 1)%nat then
            let buf := flush s start i buf in
            let buf := buf ++ backslash :: str "ufffd" in
            sanitise_loop s (i + size) (i + size) buf
          else if (c =? 0x2028) || (c =? 0x2029) then
            let buf := flush s start i buf in
            let buf := buf ++ backslash :: str "u202" ++ [hex_at (Z.land c 0xF)] in
            sanitise_loop s (i + size) (i + size) buf
          else
            sanitise_loop s (i + size) start buf }.
Proof.
  all: try lia.
  all: assert (Hsize : (1 <= size)%nat)
    by (subst size; unfold utf8.DecodeRuneInString;
        destruct (skipn i s) as [|b0 t] eqn:Hrest;
        [ apply (f_equal (@length byte)) in Hrest;
          rewrite length_skipn in Hrest; simpl in Hrest; lia
        | cbn [length Nat.ltb Nat.leb];
          repeat match goal with
                 | |- context [if ?c then _ else _] => destruct c
                 end; cbn [snd]; lia ]).
  all: lia.
Qed.

Definition sanitiseString (s : gostring) : gostring :=
  sanitise_loop s 0 0 [quote].

(** ** sort.Strings (Go standard library)

    Go compares strings byte-wise; [sort.Strings] sorts in increasing
    order.  The order is total and equal strings are indistinguishable, so
    the result does not depend on the sorting algorithm; an insertion sort
    stands for it. *)

Fixpoint string_leb (a b : gostring) : bool :=
  match a, b with
  | [], _ => true
  | _ :: _, [] => false
  | x :: a', y :: b' =>
      if byte_val x <? byte_val y then true
      else if byte_val y <? byte_val x then false
      else string_leb a' b'
  end.

Fixpoint insert_string (x : gostring) (l : list gostring) : list gostring :=
  match l with
  | [] => [x]
  | y :: l' => if string_leb x y then x :: l else y :: insert_string x l'
  end.

Fixpoint sort_Strings (l : list gostring) : list gostring :=
  match l with
  | [] => []
  | x :: l' => insert_string x (sort_Strings l')
  end.

(** ** Nodes *)

(** Modelled from the spec: the declaration of [Node] is not part of
    [encoder.go].  [Data] is the text content of the node and [Children]
    maps a label to the sequence of child nodes that carry it.  The Go map
    is an association list, whose keys are pairwise distinct in a
    well-formed tree; the order of the list stands for the unspecified
    order in which [range] visits the map. *)
Unset Elimination Schemes.
Inductive Node : Type :=
  mkNode (Data : gostring) (Children : list (gostring * list Node)).
Set Elimination Schemes.

Definition Data (n : Node) : gostring := let (d, _) := n in d.
Definition Children (n : Node) : list (gostring * list Node) :=
  let (_, c) := n in c.

(** Modelled from the spec: [HasChildren] is declared with [Node]; a node
    is a container when [Children] has at least one entry. *)
Definition HasChildren (n : Node) : bool := (0 <? length (Children n))%nat.

(** ** Writers and encoders *)

Definition error := string.

(** [io.Writer]: [Write] returns the number of bytes written and an
    error, next to the new state of the writer. *)
Class Writer (W : Type) := Write : W -> gostring -> W * (Z * option error).

Record Encoder (W : Type) := mkEncoder {
  w : W;
  err : option error;
  contentPrefix : gostring;
  attributePrefix : gostring;
  indent : bool;
  indentText : gostring
}.

Arguments mkEncoder {W}.
Arguments w {W}.
Arguments err {W}.
Arguments contentPrefix {W}.
Arguments attributePrefix {W}.
Arguments indent {W}.
Arguments indentText {W}.

(** Modelled from the spec: the package constants [contentPrefix] and
    [attrPrefix] are declared outside [encoder.go]; the default content
    prefix is empty and the default attribute prefix is a hyphen. *)
Definition default_contentPrefix : gostring := str "".
Definition default_attrPrefix : gostring := str "-".

(** A method with receiver [enc *Encoder]: it reads and updates the
    encoder, and returns a value unless it panics ([None]). *)
Definition M (W A : Type) : Type := Encoder W -> option (A * Encoder W).

Definition ret {W A} (a : A) : M W A := fun enc => Some (a, enc).
Definition bind {W A B} (m : M W A) (k : A -> M W B) : M W B :=
  fun enc => match m enc with
             | Some (a, enc') => k a enc'
             | None => None
             end.
Definition panic {W A} : M W A := fun _ => None.
(** Reading a field of the encoder. *)
Definition read {W A} (f : Encoder W -> A) : M W A := fun enc => Some (f enc, enc).

Notation "x <- m ;; k" := (bind m (fun x => k))
  (at level 61, m at next level, right associativity).
Notation "m ;; k" := (bind m (fun _ => k))
  (at level 61, right associativity).

Definition set_w {W} (enc : Encoder W) (w' : W) : Encoder W :=
  {| w := w'; err := err enc;
     contentPrefix := contentPrefix enc; attributePrefix := attributePrefix enc;
     indent := indent enc; indentText := indentText enc |}.

Definition set_err {W} (enc : Encoder W) (e : option error) : Encoder W :=
  {| w := w enc; err := e;
     contentPrefix := contentPrefix enc; attributePrefix := attributePrefix enc;
     indent := indent enc; indentText := indentText enc |}.

Section Encoder.

Context {W : Type} `{Writer W}.

Definition NewEncoder (w : W) : Encoder W :=
  {| w := w; err := None;
     contentPrefix := default_contentPrefix;
     attributePrefix := default_attrPrefix;
     indent := false; indentText := str "" |}.

Definition SetAttributePrefix (enc : Encoder W) (prefix : gostring) : Encoder W :=
  {| w := w enc; err := err enc;
     contentPrefix := contentPrefix enc; attributePrefix := prefix;
     indent := indent enc; indentText := indentText enc |}.

Definition SetContentPrefix (enc : Encoder W) (prefix : gostring) : Encoder W :=
  {| w := w enc; err := err enc;
     contentPrefix := prefix; attributePrefix := attributePrefix enc;
     indent := indent enc; indentText := indentText enc |}.

Definition SetIndent (enc : Encoder W) (s : gostring) : Encoder W :=
  {| w := w enc; err := err enc;
     contentPrefix := contentPrefix enc; attributePrefix := attributePrefix enc;
     indent := true; indentText := s |}.

(** [enc.w.Write([]byte(ss))]: both results of [Write] are dropped. *)
Definition write1 (ss : gostring) : M W unit :=
  fun enc => Some (tt, set_w enc (fst (Write (w enc) ss))).

(** [for _, ss := range s] *)
Definition for_each {A} (f : A -> M W unit) : list A -> M W unit :=
  fix go (l : list A) : M W unit :=
    match l with
    | [] => ret tt
    | a :: l' => f a ;; go l'
    end.

Definition write (s : list gostring) : M W unit := for_each write1 s.

(** [for ii := 0; ii < n; ii++] *)
Fixpoint times (n : nat) (m : M W unit) : M W unit :=
  match n with
  | O => ret tt
  | S n' => m ;; times n' m
  end.

Definition when (c : bool) (m : M W unit) : M W unit :=
  if c then m else ret tt.

(** The closure [indentN] of [format]. *)
Definition indentN (n : nat) : M W unit :=
  ind <- read indent ;;
  when ind (times n (it <- read indentText ;; write [it])).

(** A loop over a slice that carries a local variable [com] from one
    iteration to the next. *)
Definition for_each_with {A S} (f : S -> A -> M W S) : S -> list A -> M W unit :=
  fix go (com : S) (l : list A) : M W unit :=
    match l with
    | [] => ret tt
    | a :: l' => com' <- f com a ;; go com' l'
    end.

(** [children := curNode.Children[label]], continued by [k]; a label that
    is not in the map yields the nil slice. *)
Definition with_lookup {V B} (label : gostring) (k : list V -> B)
  : list (gostring * list V) -> B :=
  fix go (m : list (gostring * list V)) : B :=
    match m with
    | [] => k []
    | (l, children) :: m' =>
        if list_eq_dec Byte.byte_eq_dec l label then k children else go m'
    end.

(** The level [lvl] counts nesting, so it is a natural number. *)
Fixpoint format (curNode : Node) (lvl : nat) {struct curNode}
  : M W (option error) :=
  (if HasChildren curNode then
     write [str "{"] ;;
     ind <- read indent ;;
     when ind (write [[newline]]) ;;
     when (0 <? length (Data curNode))%nat
       (indentN (lvl + 1) ;;
        cp <- read contentPrefix ;;
        write [[quote]; cp; str "content"; quote :: str ": ";
               sanitiseString (Data curNode); str ", "] ;;
        ind <- read indent ;;
        when ind (write [[newline]])) ;;
     let sl := map fst (Children curNode) in
     let sl := if (1 <? length sl)%nat then sort_Strings sl else sl in
     for_each_with (fun com label =>
       with_lookup label (fun children =>
         write [com] ;;
         indentN (lvl + 1) ;;
         write [[quote]; label; quote :: str ": "] ;;
         (if (1 <? length children)%nat then
            write [str "["] ;;
            for_each_with (fun com1 ch =>
              write [com1] ;;
              format ch (lvl + 2) ;;
              ret (str ", ")) (str "") children ;;
            write [str "]"]
          else
            match children with
            | ch :: _ => format ch (lvl + 1) ;; ret tt
            | [] => panic
            end) ;;
         ind <- read indent ;;
         ret (if ind then str "," ++ [newline] else str ", "))
         (Children curNode)) (str "") sl ;;
     write [[newline]] ;;
     indentN lvl ;;
     write [str "}"]
   else
     write [sanitiseString (Data curNode)]) ;;
  ret None.

(** [Encode]; [root] is a pointer that may be nil. *)
Definition Encode (root : option Node) : M W (option error) :=
  e <- read err ;;
  match e with
  | Some _ => ret e
  | None =>
      match root with
      | None => ret None
      | Some root =>
          r <- format root 0 ;;
          (fun enc => Some (tt, set_err enc r)) ;;
          write [[newline]] ;;
          read err
      end
  end.

Definition EncodeWithCustomPrefixes (root : option Node)
    (contentPrefix attributePrefix : gostring) : M W (option error) :=
  (fun enc => Some (tt, SetContentPrefix enc contentPrefix)) ;;
  (fun enc => Some (tt, SetAttributePrefix enc attributePrefix)) ;;
  Encode root.

End Encoder.

(** Two writers: a [bytes.Buffer], which appends and never fails, and a
    writer that rejects every write and only counts the attempts. *)
#[export] Instance Buffer : Writer gostring :=
  fun b p => (b ++ p, (Z.of_nat (length p), None)).

Definition broken_pipe : error := "broken pipe"%string.

#[export] Instance FailingWriter : Writer nat :=
  fun n _ => (S n, (0, Some broken_pipe)).

(** ** Well-formed UTF-8 and the units of a string

    The reading of the specification's "code points" and "malformed
    encoding units": a string is cut, from left to right, into ASCII
    bytes, well-formed multi-byte sequences (Unicode Standard, table 3-7)
    and, where no well-formed sequence starts, single malformed bytes. *)

Module Utf8Spec.

Definition between (lo hi : Z) (b : byte) : bool :=
  (lo <=? byte_val b) && (byte_val b <=? hi).

Definition is_ascii (b : byte) : bool := byte_val b <? 0x80.

(** Continuation byte. *)
Definition cont (b : byte) : bool := between 0x80 0xBF b.

Definition wf2 (b0 b1 : byte) : bool := between 0xC2 0xDF b0 && cont b1.

Definition wf3 (b0 b1 b2 : byte) : bool :=
  ((byte_val b0 =? 0xE0) && between 0xA0 0xBF b1
   || between 0xE1 0xEC b0 && cont b1
   || (byte_val b0 =? 0xED) && between 0x80 0x9F b1
   || between 0xEE 0xEF b0 && cont b1) && cont b2.

Definition wf4 (b0 b1 b2 b3 : byte) : bool :=
  ((byte_val b0 =? 0xF0) && between 0x90 0xBF b1
   || between 0xF1 0xF3 b0 && cont b1
   || (byte_val b0 =? 0xF4) && between 0x80 0x8F b1) && cont b2 && cont b3.

(** The code point that a well-formed sequence encodes. *)
Definition cp2 (b0 b1 : byte) : Z :=
  (byte_val b0 - 0xC0) * 64 + (byte_val b1 - 0x80).
Definition cp3 (b0 b1 b2 : byte) : Z :=
  (byte_val b0 - 0xE0) * 4096 + (byte_val b1 - 0x80) * 64 + (byte_val b2 - 0x80).
Definition cp4 (b0 b1 b2 b3 : byte) : Z :=
  (byte_val b0 - 0xF0) * 262144 + (byte_val b1 - 0x80) * 4096
  + (byte_val b2 - 0x80) * 64 + (byte_val b3 - 0x80).

Inductive unit_ : Type :=
| UAscii (b : byte)                  (* an ASCII byte *)
| URune (c : Z) (bs : gostring)      (* a code point above U+007F and its encoding *)
| UBad (b : byte).                   (* a malformed byte *)

Definition unit_bytes (u : unit_) : gostring :=
  match u with
  | UAscii b => [b]
  | URune _ bs => bs
  | UBad b => [b]
  end.

Fixpoint units (s : gostring) : list unit_ :=
  match s with
  | [] => []
  | b0 :: t0 =>
    if is_ascii b0 then UAscii b0 :: units t0 else
    match t0 with
    | b1 :: t1 =>
      if wf2 b0 b1 then URune (cp2 b0 b1) [b0; b1] :: units t1 else
      match t1 with
      | b2 :: t2 =>
        if wf3 b0 b1 b2 then URune (cp3 b0 b1 b2) [b0; b1; b2] :: units t2 else
        match t2 with
        | b3 :: t3 =>
          if wf4 b0 b1 b2 b3
          then URune (cp4 b0 b1 b2 b3) [b0; b1; b2; b3] :: units t3
          else UBad b0 :: units t0
        | [] => UBad b0 :: units t0
        end
      | [] => UBad b0 :: units t0
      end
    | [] => UBad b0 :: units t0
    end
  end.

(** A string is well-formed UTF-8 when none of its units is malformed. *)
Definition is_bad (u : unit_) : bool :=
  match u with UBad _ => true | _ => false end.

Definition valid (s : gostring) : bool := forallb (fun u => negb (is_bad u)) (units s).

(** What [units] produces: an ASCII byte, a byte that is not ASCII, or a
    well-formed sequence with the code point that it encodes. *)
Inductive unit_ok : unit_ -> Prop :=
| ok_ascii b : is_ascii b = true -> unit_ok (UAscii b)
| ok_bad b : is_ascii b = false -> unit_ok (UBad b)
| ok_rune2 b0 b1 :
    is_ascii b0 = false -> wf2 b0 b1 = true ->
    unit_ok (URune (cp2 b0 b1) [b0; b1])
| ok_rune3 b0 b1 b2 :
    is_ascii b0 = false -> wf2 b0 b1 = false -> wf3 b0 b1 b2 = true ->
    unit_ok (URune (cp3 b0 b1 b2) [b0; b1; b2])
| ok_rune4 b0 b1 b2 b3 :
    is_ascii b0 = false -> wf2 b0 b1 = false -> wf3 b0 b1 b2 = false ->
    wf4 b0 b1 b2 b3 = true ->
    unit_ok (URune (cp4 b0 b1 b2 b3) [b0; b1; b2; b3]).

End Utf8Spec.

(** ** The escaping rules, as the specification words them *)

Module SanitiseSpec.
Import Utf8Spec.

(** The bytes that are escaped: those below 0x20, the backslash, the
    double quote, and the three of HTML: less-than, greater-than, ampersand. *)
Definition in_escape_set (b : byte) : bool :=
  (byte_val b <? 0x20) || (byte_val b =? 0x5C) || (byte_val b =? 0x22)
  || (byte_val b =? 0x3C) || (byte_val b =? 0x3E) || (byte_val b =? 0x26).

Definition byte_of_Z (z : Z) : byte :=
  match Byte.of_N (Z.to_N z) with Some b => b | None => x00 end.

(** A lowercase hexadecimal digit. *)
Definition hex_digit (d : Z) : byte :=
  if d <? 10 then byte_of_Z (0x30 + d) else byte_of_Z (0x61 + (d - 10)).

Definition escape_ascii (b : byte) : gostring :=
  if (byte_val b =? 0x5C) || (byte_val b =? 0x22) then [backslash; b]
  else if byte_val b =? 0x0A then [backslash; "n"%byte]
  else if byte_val b =? 0x0D then [backslash; "r"%byte]
  else if byte_val b =? 0x09 then [backslash; "t"%byte]
  else backslash :: str "u00" ++ [hex_digit (byte_val b / 16); hex_digit (byte_val b mod 16)].

Definition escape_unit (u : unit_) : gostring :=
  match u with
  | UAscii b => if in_escape_set b then escape_ascii b else [b]
  | UBad _ => backslash :: str "ufffd"
  | URune c bs =>
      if c =? 0x2028 then backslash :: str "u2028"
      else if c =? 0x2029 then backslash :: str "u2029"
      else bs
  end.

Definition escape (s : gostring) : gostring :=
  concat (map escape_unit (units s)).

Definition sanitise (s : gostring) : gostring :=
  [quote] ++ escape s ++ [quote].

End SanitiseSpec.

(** ** JSON string literals (RFC 8259, section 7)

    A string is a quotation mark, a sequence of characters and a quotation
    mark.  A character is either unescaped (any code point from U+0020 on
    except the quotation mark and the reverse solidus, UTF-8 encoded) or
    an escape: a reverse solidus followed by one of the quotation mark,
    the reverse solidus, the solidus, [b], [f], [n], [r], [t], or by [u]
    and four hexadecimal digits.  [parse_string] reads a literal back into
    the sequence of its characters; an escape with [u] yields the value of
    its four digits. *)

Module Json.
Import Utf8Spec.

Definition is_hex (b : byte) : bool :=
  between 0x30 0x39 b || between 0x41 0x46 b || between 0x61 0x66 b.

Definition hex_val (b : byte) : Z :=
  if between 0x30 0x39 b then byte_val b - 0x30
  else if between 0x41 0x46 b then byte_val b - 0x41 + 10
  else byte_val b - 0x61 + 10.

(** The character that a one-letter escape denotes. *)
Definition simple_escape (e : byte) : option Z :=
  if (byte_val e =? 0x22) || (byte_val e =? 0x5C) || (byte_val e =? 0x2F)
  then Some (byte_val e)
  else if byte_val e =? 0x62 then Some 0x08
  else if byte_val e =? 0x66 then Some 0x0C
  else if byte_val e =? 0x6E then Some 0x0A
  else if byte_val e =? 0x72 then Some 0x0D
  else if byte_val e =? 0x74 then Some 0x09
  else None.

Definition cons_char (c : Z) (r : option (list Z)) : option (list Z) :=
  option_map (cons c) r.

(** The characters after the opening quotation mark, up to the closing
    one, which has to be the last byte. *)
Fixpoint parse_chars (s : gostring) : option (list Z) :=
  match s with
  | [] => None
  | b0 :: t0 =>
    if byte_val b0 =? 0x22 then
      match t0 with [] => Some [] | _ :: _ => None end
    else if byte_val b0 =? 0x5C then
      match t0 with
      | e :: t1 =>
        match simple_escape e with
        | Some c => cons_char c (parse_chars t1)
        | None =>
          if byte_val e =? 0x75 then
            match t1 with
            | h1 :: h2 :: h3 :: h4 :: t5 =>
              if is_hex h1 && is_hex h2 && is_hex h3 && is_hex h4 then
                cons_char (((hex_val h1 * 16 + hex_val h2) * 16 + hex_val h3) * 16
                           + hex_val h4)
                          (parse_chars t5)
              else None
            | _ => None
            end
          else None
        end
      | [] => None
      end
    else if byte_val b0 <? 0x20 then None
    else if is_ascii b0 then cons_char (byte_val b0) (parse_chars t0)
    else
      match t0 with
      | b1 :: t1 =>
        if wf2 b0 b1 then cons_char (cp2 b0 b1) (parse_chars t1) else
        match t1 with
        | b2 :: t2 =>
          if wf3 b0 b1 b2 then cons_char (cp3 b0 b1 b2) (parse_chars t2) else
          match t2 with
          | b3 :: t3 =>
            if wf4 b0 b1 b2 b3
            then cons_char (cp4 b0 b1 b2 b3) (parse_chars t3)
            else None
          | [] => None
          end
        | [] => None
        end
      | [] => None
      end
  end.

Definition parse_string (s : gostring) : option (list Z) :=
  match s with
  | b :: t => if byte_val b =? 0x22 then parse_chars t else None
  | [] => None
  end.

End Json.

(** The code points of a string; a malformed byte reads as U+FFFD. *)
Definition unit_code_point (u : Utf8Spec.unit_) : Z :=
  match u with
  | Utf8Spec.UAscii b => byte_val b
  | Utf8Spec.URune c _ => c
  | Utf8Spec.UBad _ => 0xFFFD
  end.

Definition code_points (s : gostring) : list Z :=
  map unit_code_point (Utf8Spec.units s).

(** ** The text of an object, as the specification lays it out *)

Section Text.

Context {W : Type}.
Variable enc : Encoder W.

(** The newline that the indenting mode adds. *)
Definition nl_text : gostring := if indent enc then [newline] else [].

(** The indentation of nesting level [n]. *)
Definition indent_text (n : nat) : gostring :=
  if indent enc then concat (repeat (indentText enc) n) else [].

(** The separator of successive key-value pairs. *)
Definition sep_text : gostring :=
  if indent enc then str "," ++ [newline] else str ", ".

(** The items, the first after [com] and the others after [sep]. *)
Fixpoint join_from (com sep : gostring) (items : list gostring) : gostring :=
  match items with
  | [] => []
  | x :: xs => com ++ x ++ join_from sep sep xs
  end.

Definition join (sep : gostring) (items : list gostring) : gostring :=
  join_from [] sep items.

(** The synthetic content key with its value, for a non-empty [Data]. *)
Definition content_text (lvl : nat) (d : gostring) : gostring :=
  if (0 <? length d)%nat then
    indent_text (lvl + 1) ++ [quote] ++ contentPrefix enc ++ str "content"
    ++ quote :: str ": " ++ sanitiseString d ++ str ", " ++ nl_text
  else [].

Definition entry_text (lvl : nat) (e : gostring * gostring) : gostring :=
  indent_text (lvl + 1) ++ [quote] ++ fst e ++ quote :: str ": " ++ snd e.

(** The entries of an object and its closing brace. *)
Definition entries_text (lvl : nat) (entries : list (gostring * gostring))
  : gostring :=
  join sep_text (map (entry_text lvl) entries)
  ++ [newline] ++ indent_text lvl ++ str "}".

Definition object_text (lvl : nat) (d : gostring)
    (entries : list (gostring * gostring)) : gostring :=
  str "{" ++ nl_text ++ content_text lvl d ++ entries_text lvl entries.

Definition array_text (elems : list gostring) : gostring :=
  str "[" ++ join (str ", ") elems ++ str "]".

End Text.

(** The children of a label: the first entry of the map with that key. *)
Fixpoint lookup {V} (label : gostring) (m : list (gostring * list V))
  : option (list V) :=
  match m with
  | [] => None
  | (l, children) :: m' =>
      if list_eq_dec Byte.byte_eq_dec l label then Some children
      else lookup label m'
  end.

(** The invariant of the data model: every label has at least one child,
    all the way down. *)
Fixpoint well_formed (n : Node) : bool :=
  forallb (fun e => match snd e with
                    | [] => false
                    | _ :: _ => forallb well_formed (snd e)
                    end) (Children n).

(** Running on a buffer: [m] returns normally and appends [t], whatever
    the buffer holds. *)
Definition emits (enc : Encoder gostring) {A} (m : M gostring A) (t : gostring)
  : Prop :=
  exists a, forall b, m (set_w enc b) = Some (a, set_w enc (b ++ t)).

(** ** The order of strings *)

Definition string_le (a b : gostring) : Prop := string_leb a b = true.

(** Strict order, for labels that are pairwise distinct. *)
Definition string_lt (a b : gostring) : Prop := string_le a b /\ a <> b.

(** The keys in the order of emission: [sl] after the conditional call of
    [sort.Strings]. *)
Definition key_order (labels : list gostring) : list gostring :=
  if (1 <? length labels)%nat then sort_Strings labels else labels.

(** ** What a method does to the encoder *)

Section Judgments.

Context {W : Type} `{Writer W}.

(** Every run of [m] that returns relates the encoder before and after
    by [R]. *)
Definition Preserves (R : Encoder W -> Encoder W -> Prop) {A} (m : M W A)
  : Prop :=
  forall enc a enc', m enc = Some (a, enc') -> R enc enc'.

(** [m] changes nothing but the state of the writer. *)
Definition Frame {A} (m : M W A) : Prop :=
  Preserves (fun enc enc' => enc' = set_w enc (w enc')) m.

(** The state of the writer after the calls of [Write] with [cs]. *)
Definition replay (cs : list gostring) (w0 : W) : W :=
  fold_left (fun w c => fst (Write w c)) cs w0.

(** Whatever the state of the writer, [m] returns [a] after a sequence of
    calls of [Write] whose arguments concatenate to [t], and changes
    nothing else. *)
Definition Writes (enc : Encoder W) {A} (m : M W A) (a : A) (t : gostring)
  : Prop :=
  exists cs, concat cs = t
             /\ forall w0, m (set_w enc w0) = Some (a, set_w enc (replay cs w0)).

(** The text of the value of a label, from the texts of its children. *)
Inductive ValueText (enc : Encoder W) (lvl : nat)
  : list Node -> gostring -> Prop :=
| value_single ch v :
    Writes enc (format ch (lvl + 1)) None v -> ValueText enc lvl [ch] v
| value_array children elems :
    (1 < length children)%nat ->
    Forall2 (fun ch t => Writes enc (format ch (lvl + 2)) None t) children elems ->
    ValueText enc lvl children (array_text elems).

(** The text of the value of a label of the map [cs]. *)
Definition LabelText (enc : Encoder W) (lvl : nat)
   (cs : list (gostring * list Node)) (label : gostring) (v : gostring) : Prop :=
  exists children, lookup label cs = Some children /\ ValueText enc lvl children v.


End Judgments.

(** On a buffer, [m] only appends. *)
Definition Appends {A} (m : M gostring A) : Prop :=
  Preserves (fun enc enc' => exists t, enc' = set_w enc (w enc ++ t)) m.

(** ** Trees of the scenarios *)

Definition leaf (s : string) : Node := mkNode (str s) [].

(** [<hello>world</hello>] *)
Definition ex_hello : Node := mkNode (str "") [(str "hello", [leaf "world"])].

(** A label that occurs twice, next to one that occurs once. *)
Definition ex_repeated : Node :=
  mkNode (str "") [(str "foo", [leaf "bar"; leaf "baz"]); (str "a", [leaf "b"])].

(** Mixed content. *)
Definition ex_mixed : Node := mkNode (str "text") [(str "x", [leaf "v"])].

(** Attributes and elements, in the order of the document. *)
Definition ex_osm : Node :=
  mkNode (str "")
    [(str "-version", [leaf "0.6"]);
     (str "-generator", [leaf "CGImap 0.0.2"]);
     (str "bounds", [mkNode (str "") [(str "-minlat", [leaf "54.0889580"])]]);
     (str "foo", [leaf "bar"])].

(** A new encoder over an empty buffer, and one that indents by two
    spaces. *)
Definition enc0 : Encoder gostring := NewEncoder [].
Definition enc_indent : Encoder gostring := SetIndent (NewEncoder []) (str "  ").

(** ** What the result of the sanitiser is made of *)

(** A byte that is neither a control character nor one of the characters
    [<], [>] and [&]. *)
Definition safe_byte (b : byte) : bool :=
  (0x20 <=? byte_val b) && negb (byte_val b =? 0x3C)
  && negb (byte_val b =? 0x3E) && negb (byte_val b =? 0x26).

(** A unit that is neither malformed nor one of the two separators. *)
Definition clean_unit (u : Utf8Spec.unit_) : bool :=
  negb (Utf8Spec.is_bad u) && negb (unit_code_point u =? 0x2028)
  && negb (unit_code_point u =? 0x2029).

(** ** Trees as Go maps give them *)

(** The keys of every map of the tree are pairwise distinct, as the keys
    of a Go map are. *)
#[warnings="-register-all"]
Inductive map_ok : Node -> Prop :=
| map_ok_node d cs :
    NoDup (map fst cs) ->
    Forall (fun e => Forall map_ok (snd e)) cs ->
    map_ok (mkNode d cs).

(** [m] returns from [enc]: it does not panic. *)
Definition returns {W A} (m : M W A) (enc : Encoder W) : Prop :=
  exists r, m enc = Some r.

(** ** Uses of an encoder *)

(** A call of one of the exported methods of an encoder. *)
Inductive call : Type :=
| CallSetAttributePrefix (prefix : gostring)
| CallSetContentPrefix (prefix : gostring)
| CallSetIndent (s : gostring)
| CallEncode (root : option Node)
| CallEncodeWithCustomPrefixes (root : option Node)
    (contentPrefix attributePrefix : gostring).

Definition is_SetIndent (c : call) : bool :=
  match c with
  | CallSetIndent _ => true
  | _ => false
  end.

Section Calls.

Context {W : Type} `{Writer W}.

(** The call on the encoder, with the error it returns if it is one of
    the encoding methods; the setters return the encoder itself. *)
Definition do_call (c : call) : M W (list (option error)) :=
  match c with
  | CallSetAttributePrefix prefix =>
      fun enc => Some ([], SetAttributePrefix enc prefix)
  | CallSetContentPrefix prefix =>
      fun enc => Some ([], SetContentPrefix enc prefix)
  | CallSetIndent s =>
      fun enc => Some ([], SetIndent enc s)
  | CallEncode root =>
      r <- Encode root ;; ret [r]
  | CallEncodeWithCustomPrefixes root contentPrefix attributePrefix =>
      r <- EncodeWithCustomPrefixes root contentPrefix attributePrefix ;;
      ret [r]
  end.

(** The calls one after the other on the same encoder, with the errors
    returned on the way. *)
Fixpoint do_calls (cs : list call) : M W (list (option error)) :=
  match cs with
  | [] => ret []
  | c :: cs' =>
      r <- do_call c ;;
      rs <- do_calls cs' ;;
      ret (r ++ rs)
  end.

End Calls.

(** What every call maintains: no error is stored, and the indentation
    text is empty as long as the indenting mode is off. *)
Definition encoder_inv {W} (enc : Encoder W) : Prop :=
  err enc = None /\ (indent enc = false -> indentText enc = []).

(** ** A field that a method does not read *)

(** [m] runs in the same way before and after the update [g] of the
    encoder: same panics, same result, and the final encoders differ by
    [g] again. *)
Definition Commutes {W} (g : Encoder W -> Encoder W) {A} (m : M W A) : Prop :=
  forall enc,
    m (g enc) = match m enc with
                | Some (a, enc') => Some (a, g enc')
                | None => None
                end.

(** ** Further trees *)

(** A label [c] without children, inside the child of the label [b]. *)
Definition ex_childless : Node :=
  mkNode (str "")
    [(str "a", [leaf "x"]);
     (str "b", [mkNode (str "") [(str "c", [])]])].

(** Mixed content next to two labels. *)
Definition ex_mixed_pair : Node :=
  mkNode (str "text") [(str "a", [leaf "1"]); (str "b", [leaf "2"])].

(** ** Two methods on an encoder in compact mode *)

(** From every encoder that does not indent, [m] and [m'] run alike, and
    leave an encoder that does not indent. *)
Definition Agree {W A} (m m' : M W A) : Prop :=
  forall enc, indent enc = false ->
    m enc = m' enc
    /\ forall a enc', m enc = Some (a, enc') -> indent enc' = false.

(** ** JSON texts *)

(** The grammar of RFC 8259 for the values that are built from strings,
    objects with at least one member and arrays with at least one
    element, with insignificant whitespace where the grammar allows it. *)

Definition is_ws (b : byte) : bool :=
  (byte_val b =? 0x20) || (byte_val b =? 0x09)
  || (byte_val b =? 0x0A) || (byte_val b =? 0x0D).

Definition json_ws (s : gostring) : Prop := forallb is_ws s = true.

(** A string with its two quotation marks. *)
Definition json_string (s : gostring) : Prop :=
  exists cs, Json.parse_string s = Some cs.

Inductive json_value : gostring -> Prop :=
| json_value_string s :
    json_string s -> json_value s
| json_value_object ms :
    json_members ms -> json_value (str "{" ++ ms ++ str "}")
| json_value_array es :
    json_elements es -> json_value (str "[" ++ es ++ str "]")
with json_members : gostring -> Prop :=
| json_member_last w1 k w2 e :
    json_ws w1 -> json_string k -> json_ws w2 -> json_element e ->
    json_members (w1 ++ k ++ w2 ++ str ":" ++ e)
| json_member_more w1 k w2 e ms :
    json_ws w1 -> json_string k -> json_ws w2 -> json_element e ->
    json_members ms ->
    json_members (w1 ++ k ++ w2 ++ str ":" ++ e ++ str "," ++ ms)
with json_elements : gostring -> Prop :=
| json_element_last e :
    json_element e -> json_elements e
| json_element_more e es :
    json_element e -> json_elements es ->
    json_elements (e ++ str "," ++ es)
with json_element : gostring -> Prop :=
| json_element_value w1 v w2 :
    json_ws w1 -> json_value v -> json_ws w2 ->
    json_element (w1 ++ v ++ w2).

(** The label between quotation marks is a JSON string as it stands. *)
Definition is_json_key (label : gostring) : bool :=
  match Json.parse_string (quote :: label ++ [quote]) with
  | Some _ => true
  | None => false
  end.

(** Every label of the tree is a JSON string as it stands. *)
Fixpoint json_keys (n : Node) : bool :=
  forallb (fun e => is_json_key (fst e) && forallb json_keys (snd e))
          (Children n).

(** An entry of an object: a key that is a JSON string as it stands, with
    a JSON value. *)
Definition entry_ok (e : gostring * gostring) : Prop :=
  is_json_key (fst e) = true /\ json_value (snd e).

(** At every level, [format] writes a JSON value for [n]. *)
Definition JsonText {W} `{Writer W} (enc : Encoder W) (n : Node) : Prop :=
  forall lvl, exists t, Writes enc (format n lvl) None t /\ json_value t.

(** * Properties of the sanitiser *)

(** A non-empty input is decoded with a width of at least one byte: the
    loop of the sanitiser advances at every iteration. *)
Lemma DecodeRuneInString_size_pos (s : gostring) :
  s <> [] -> (1 <= snd (utf8.DecodeRuneInString s))%nat.
Proof.
  intros Hs. unfold utf8.DecodeRuneInString.
  destruct s as [|b t]; [congruence|].
  cbn [length Nat.ltb Nat.leb].
  repeat match goal with
         | |- context [if ?c then _ else _] => destruct c
         end; cbn [snd]; lia.
Qed.

Lemma byte_val_range (b : byte) : 0 <= byte_val b < 256.
Proof.
  unfold byte_val. pose proof (Byte.to_N_bounded b). lia.
Qed.

Lemma byte_val_inj (x y : byte) : byte_val x = byte_val y -> x = y.
Proof.
  unfold byte_val. intros Hxy. apply N2Z.inj in Hxy.
  pose proof (Byte.of_to_N x) as Hx. pose proof (Byte.of_to_N y) as Hy.
  rewrite Hxy in Hx. congruence.
Qed.

(** The lookups in the tables of the source stay within the tables. *)
Lemma hex_index_in_range (b : byte) :
  (Z.to_nat (Z.shiftr (byte_val b) 4) < length hex)%nat
  /\ (Z.to_nat (Z.land (byte_val b) 0xF) < length hex)%nat.
Proof. destruct b; split; apply Nat.ltb_lt; reflexivity. Qed.

Lemma first_index_in_range (b : byte) :
  (Z.to_nat (byte_val b) < length utf8.first)%nat
  /\ (Z.to_nat (Z.shiftr (nth (Z.to_nat (byte_val b)) utf8.first 0%Z) 4)
      < length utf8.acceptRanges)%nat.
Proof. destruct b; split; apply Nat.ltb_lt; reflexivity. Qed.

Lemma sanitise_loop_done s i start buf :
  ~ (i < length s)%nat ->
  sanitise_loop s i start buf =
  (if (start <? length s)%nat then buf ++ skipn start s else buf) ++ [quote].
Proof.
  intros Hi. rewrite sanitise_loop_equation_1.
  destruct (lt_dec i (length s)); [contradiction|]. reflexivity.
Qed.

Lemma sanitise_loop_step s i start buf :
  (i < length s)%nat ->
  sanitise_loop s i start buf =
  let b := nth i s x00 in
  if byte_val b <? utf8.RuneSelf then
    if (0x20 <=? byte_val b) && negb (byte_val b =? 0x5C)
       && negb (byte_val b =? 0x22) && negb (byte_val b =? 0x3C)
       && negb (byte_val b =? 0x3E) && negb (byte_val b =? 0x26)
    then sanitise_loop s (i + 1) start buf
    else sanitise_loop s (i + 1) (i + 1) (flush s start i buf ++ escape_byte b)
  else
    let c := fst (utf8.DecodeRuneInString (skipn i s)) in
    let size := snd (utf8.DecodeRuneInString (skipn i s)) in
    if (c =? utf8.RuneError) && (size =? 1)%nat then
      sanitise_loop s (i + size) (i + size)
        (flush s start i buf ++ backslash :: str "ufffd")
    else if (c =? 0x2028) || (c =? 0x2029) then
      sanitise_loop s (i + size) (i + size)
        (flush s start i buf ++ backslash :: str "u202" ++ [hex_at (Z.land c 0xF)])
    else sanitise_loop s (i + size) start buf.
Proof.
  intros Hi. rewrite sanitise_loop_equation_1.
  destruct (lt_dec i (length s)); [|contradiction]. reflexivity.
Qed.

(** ** Bit patterns and arithmetic *)

Lemma lor_shiftl_add (a c k : Z) :
  0 <= k -> 0 <= c < 2 ^ k -> Z.lor (Z.shiftl a k) c = a * 2 ^ k + c.
Proof.
  intros Hk Hc. rewrite Z.shiftl_mul_pow2 by assumption.
  assert (Hdisj : Z.land (a * 2 ^ k) c = 0).
  { apply Z.bits_inj'. intros n Hn.
    rewrite Z.land_spec, Z.bits_0.
    destruct (Z.lt_ge_cases n k) as [Hlt | Hge].
    - rewrite Z.mul_pow2_bits_low by assumption. reflexivity.
    - rewrite <- (Z.mod_small c (2 ^ k)) by assumption.
      rewrite Z.mod_pow2_bits_high by lia. apply andb_false_r. }
  rewrite <- Z.lxor_lor by assumption.
  symmetry. apply Z.add_nocarry_lxor. assumption.
Qed.

Import Utf8Spec.

Lemma land_maskx (b : byte) :
  cont b = true -> Z.land (byte_val b) utf8.maskx = byte_val b - 0x80.
Proof. destruct b; intros Hb; vm_compute in Hb |- *; congruence. Qed.

Lemma land_mask2 (b : byte) :
  between 0xC0 0xDF b = true -> Z.land (byte_val b) utf8.mask2 = byte_val b - 0xC0.
Proof. destruct b; intros Hb; vm_compute in Hb |- *; congruence. Qed.

Lemma land_mask3 (b : byte) :
  between 0xE0 0xEF b = true -> Z.land (byte_val b) utf8.mask3 = byte_val b - 0xE0.
Proof. destruct b; intros Hb; vm_compute in Hb |- *; congruence. Qed.

Lemma land_mask4 (b : byte) :
  between 0xF0 0xF7 b = true -> Z.land (byte_val b) utf8.mask4 = byte_val b - 0xF0.
Proof. destruct b; intros Hb; vm_compute in Hb |- *; congruence. Qed.

Lemma between_spec lo hi b :
  between lo hi b = true <-> lo <= byte_val b <= hi.
Proof. unfold between. rewrite andb_true_iff, !Z.leb_le. tauto. Qed.

Lemma rune2_bits (b0 b1 : byte) :
  wf2 b0 b1 = true ->
  Z.lor (Z.shiftl (Z.land (byte_val b0) utf8.mask2) 6)
        (Z.land (byte_val b1) utf8.maskx) = cp2 b0 b1.
Proof.
  unfold wf2, cp2. rewrite andb_true_iff. intros [H0 H1].
  rewrite land_maskx by assumption.
  rewrite land_mask2 by (apply between_spec; apply between_spec in H0; lia).
  apply between_spec in H1.
  rewrite lor_shiftl_add by lia. lia.
Qed.

Lemma rune3_bits (b0 b1 b2 : byte) :
  between 0xE0 0xEF b0 = true -> cont b1 = true -> cont b2 = true ->
  Z.lor (Z.lor (Z.shiftl (Z.land (byte_val b0) utf8.mask3) 12)
               (Z.shiftl (Z.land (byte_val b1) utf8.maskx) 6))
        (Z.land (byte_val b2) utf8.maskx) = cp3 b0 b1 b2.
Proof.
  unfold cp3. intros H0 H1 H2.
  rewrite !land_maskx, land_mask3 by assumption.
  apply between_spec in H0, H1, H2.
  replace 12 with (6 + 6) by reflexivity.
  rewrite <- Z.shiftl_shiftl, <- Z.shiftl_lor by lia.
  rewrite !lor_shiftl_add by lia. lia.
Qed.

Lemma rune4_bits (b0 b1 b2 b3 : byte) :
  between 0xF0 0xF7 b0 = true -> cont b1 = true -> cont b2 = true ->
  cont b3 = true ->
  Z.lor (Z.lor (Z.lor (Z.shiftl (Z.land (byte_val b0) utf8.mask4) 18)
                      (Z.shiftl (Z.land (byte_val b1) utf8.maskx) 12))
               (Z.shiftl (Z.land (byte_val b2) utf8.maskx) 6))
        (Z.land (byte_val b3) utf8.maskx) = cp4 b0 b1 b2 b3.
Proof.
  unfold cp4. intros H0 H1 H2 H3.
  rewrite !land_maskx, land_mask4 by assumption.
  apply between_spec in H0, H1, H2, H3.
  replace 18 with (6 + 6 + 6) by reflexivity.
  replace 12 with (6 + 6) by reflexivity.
  rewrite <- !Z.shiftl_shiftl by lia.
  rewrite <- !Z.shiftl_lor.
  rewrite !lor_shiftl_add by lia. lia.
Qed.

Lemma first_at (b : byte) :
  nth (Z.to_nat (byte_val b)) utf8.first 0 =
  let v := byte_val b in
  if v <? 0x80 then utf8.as_
  else if v <? 0xC2 then utf8.xx
  else if v <? 0xE0 then utf8.s1
  else if v =? 0xE0 then utf8.s2
  else if v <? 0xED then utf8.s3
  else if v =? 0xED then utf8.s4
  else if v <? 0xF0 then utf8.s3
  else if v =? 0xF0 then utf8.s5
  else if v <? 0xF4 then utf8.s6
  else if v =? 0xF4 then utf8.s7
  else utf8.xx.
Proof. destruct b; reflexivity. Qed.

Ltac cmp_lia :=
  repeat match goal with
  | |- context [Z.ltb ?a ?b] =>
      first [ rewrite (proj2 (Z.ltb_lt a b)) by lia
            | rewrite (proj2 (Z.ltb_ge a b)) by lia ]
  | |- context [Z.leb ?a ?b] =>
      first [ rewrite (proj2 (Z.leb_le a b)) by lia
            | rewrite (proj2 (Z.leb_gt a b)) by lia ]
  | |- context [Z.eqb ?a ?b] =>
      first [ rewrite (proj2 (Z.eqb_eq a b)) by lia
            | rewrite (proj2 (Z.eqb_neq a b)) by lia ]
  end.

Ltac cmp_split :=
  match goal with
  | |- context [Z.ltb ?a ?b] => destruct (Z.ltb_spec a b)
  | |- context [Z.leb ?a ?b] => destruct (Z.leb_spec a b)
  | |- context [Z.eqb ?a ?b] => destruct (Z.eqb_spec a b)
  end.

Ltac eval_closed :=
  repeat match goal with
  | |- context [Z.to_nat (Z.land ?x 7)] =>
      let v := eval vm_compute in (Z.to_nat (Z.land x 7)) in
      change (Z.to_nat (Z.land x 7)) with v
  | |- context [nth (Z.to_nat (Z.shiftr ?x 4)) utf8.acceptRanges ?d] =>
      let v := eval vm_compute in (nth (Z.to_nat (Z.shiftr x 4)) utf8.acceptRanges d) in
      change (nth (Z.to_nat (Z.shiftr x 4)) utf8.acceptRanges d) with v
  | |- context [Z.shiftr (utf8.int32 (Z.shiftl ?x 31)) 31] =>
      let v := eval vm_compute in (Z.shiftr (utf8.int32 (Z.shiftl x 31)) 31) in
      change (Z.shiftr (utf8.int32 (Z.shiftl x 31)) 31) with v
  end.

Ltac wf_facts :=
  unfold wf2, wf3, wf4, cont, between; cmp_lia; reflexivity.

Ltac decode_leaf :=
  first
  [ left; split; reflexivity
  | right; eexists _, _; split; [reflexivity|];
    split; [cbn [length]; lia|]; cbn [firstn skipn];
    first [ rewrite rune2_bits by wf_facts
          | rewrite rune3_bits by wf_facts
          | rewrite rune4_bits by wf_facts ];
    reflexivity ].

Ltac decode_case :=
  cmp_lia; cbn [andb orb];
  first [ decode_leaf | cmp_split; decode_case ].

Lemma decode_units (b0 : byte) (t0 : gostring) :
  is_ascii b0 = false ->
  (utf8.DecodeRuneInString (b0 :: t0) = (utf8.RuneError, 1%nat)
   /\ units (b0 :: t0) = UBad b0 :: units t0)
  \/ (exists c size,
        utf8.DecodeRuneInString (b0 :: t0) = (c, size)
        /\ (2 <= size <= length (b0 :: t0))%nat
        /\ units (b0 :: t0)
           = URune c (firstn size (b0 :: t0)) :: units (skipn size (b0 :: t0))).
Proof.
  intros Ha.
  assert (Hv : 0x80 <= byte_val b0 < 256).
  { pose proof (byte_val_range b0). unfold is_ascii in Ha.
    apply Z.ltb_ge in Ha. lia. }
  unfold utf8.DecodeRuneInString, byte_at.
  cbn [length Nat.ltb Nat.leb nth]. rewrite first_at. cbv zeta.
  cbn [units]. rewrite Ha.
  assert (Hcase : byte_val b0 < 0xC2 \/ 0xC2 <= byte_val b0 <= 0xDF
                  \/ byte_val b0 = 0xE0 \/ 0xE1 <= byte_val b0 <= 0xEC
                  \/ byte_val b0 = 0xED \/ 0xEE <= byte_val b0 <= 0xEF
                  \/ byte_val b0 = 0xF0 \/ 0xF1 <= byte_val b0 <= 0xF3
                  \/ byte_val b0 = 0xF4 \/ 0xF5 <= byte_val b0) by lia.
  destruct Hcase as [Hc|[Hc|[Hc|[Hc|[Hc|[Hc|[Hc|[Hc|[Hc|Hc]]]]]]]]];
    cmp_lia; eval_closed;
    unfold utf8.as_, utf8.xx, utf8.s1, utf8.s2, utf8.s3, utf8.s4, utf8.s5,
      utf8.s6, utf8.s7; cmp_lia;
    rewrite ?Z.ldiff_m1_r, ?Z.land_m1_r;
    cbn [utf8.lo utf8.hi Nat.leb Z.lor];
    unfold utf8.locb, utf8.hicb, wf2, wf3, wf4, cont, between;
    destruct t0 as [|b1 [|b2 [|b3 t3]]];
    cbn [length Nat.leb nth];
    decode_case.
Qed.

(** ** The loop of the sanitiser against the escaping rules *)

Import SanitiseSpec.

Lemma slice_empty s a : slice s a a = [].
Proof. unfold slice. rewrite Nat.sub_diag. reflexivity. Qed.

Lemma firstn_plus {A} (a k : nat) (l : list A) :
  firstn (a + k) l = firstn a l ++ firstn k (skipn a l).
Proof.
  revert l. induction a as [|a IH]; intros l; [reflexivity|].
  destruct l as [|x l]; [rewrite skipn_nil, !firstn_nil; reflexivity|].
  cbn [Nat.add firstn skipn app]. f_equal. apply IH.
Qed.

Lemma slice_extend s start i k :
  (start <= i)%nat -> (i + k <= length s)%nat ->
  slice s start (i + k) = slice s start i ++ firstn k (skipn i s).
Proof.
  intros Hs Hk. unfold slice.
  replace (i + k - start)%nat with ((i - start) + k)%nat by lia.
  rewrite firstn_plus. f_equal.
  rewrite skipn_skipn. f_equal. f_equal. lia.
Qed.

Lemma skipn_nth_cons (s : gostring) i :
  (i < length s)%nat -> skipn i s = nth i s x00 :: skipn (i + 1) s.
Proof.
  revert i. induction s as [|a s IH]; intros i Hi; simpl in Hi; [lia|].
  destruct i as [|i]; [reflexivity|].
  cbn [skipn nth Nat.add]. apply IH. lia.
Qed.

Lemma flush_slice s start i buf :
  (start <= i)%nat -> flush s start i buf = buf ++ slice s start i.
Proof.
  intros Hs. unfold flush. destruct (Nat.ltb_spec start i); [reflexivity|].
  replace i with start by lia. rewrite slice_empty, app_nil_r. reflexivity.
Qed.

Lemma verbatim_test (b : byte) :
  (0x20 <=? byte_val b) && negb (byte_val b =? 0x5C)
  && negb (byte_val b =? 0x22) && negb (byte_val b =? 0x3C)
  && negb (byte_val b =? 0x3E) && negb (byte_val b =? 0x26)
  = negb (in_escape_set b).
Proof. destruct b; reflexivity. Qed.

Lemma escape_byte_ascii (b : byte) : escape_byte b = escape_ascii b.
Proof. destruct b; reflexivity. Qed.

Lemma escape_cons_ascii b t :
  is_ascii b = true ->
  escape (b :: t) = (if in_escape_set b then escape_ascii b else [b]) ++ escape t.
Proof. intros Hb. unfold escape. cbn [units]. rewrite Hb. reflexivity. Qed.

Lemma sanitise_loop_escape (n : nat) :
  forall s i start buf,
    (length s - i <= n)%nat -> (start <= i <= length s)%nat ->
    sanitise_loop s i start buf
    = buf ++ slice s start i ++ escape (skipn i s) ++ [quote].
Proof.
  induction n as [|n IH]; intros s i start buf Hn Hi.
  - rewrite sanitise_loop_done by lia.
    rewrite (@skipn_all2 _ i s) by lia. unfold slice, escape. cbn [units map concat app].
    replace i with (length s) by lia.
    destruct (Nat.ltb_spec start (length s)).
    + rewrite firstn_all2 by (rewrite length_skipn; lia).
      rewrite <- app_assoc. reflexivity.
    + replace start with (length s) by lia.
      rewrite Nat.sub_diag. reflexivity.
  - destruct (lt_dec i (length s)) as [Hlt | Hge].
    2:{ apply IH; lia. }
    rewrite sanitise_loop_step by assumption. cbv zeta.
    pose proof (skipn_nth_cons s i Hlt) as Hsk.
    set (b := nth i s x00) in *. set (t := skipn (i + 1) s) in *.
    assert (Hlen : length (b :: t) = (length s - i)%nat)
      by (rewrite <- Hsk; apply length_skipn).
    rewrite Hsk.
    change utf8.RuneSelf with 0x80.
    destruct (byte_val b <? 0x80) eqn:Hascii.
    + rewrite verbatim_test.
      rewrite (escape_cons_ascii b t Hascii).
      destruct (in_escape_set b) eqn:Hesc; cbn [negb].
      * rewrite IH by lia. rewrite slice_empty, flush_slice by lia.
        rewrite escape_byte_ascii. rewrite <- !app_assoc. reflexivity.
      * rewrite IH by lia.
        rewrite (slice_extend s start i 1) by lia.
        rewrite Hsk. cbn [firstn].
        rewrite <- !app_assoc. reflexivity.
    + destruct (decode_units b t Hascii)
        as [[Hd Hu] | (c & size & Hd & Hsz & Hu)];
        rewrite Hd; cbn [fst snd].
      * rewrite Z.eqb_refl. cbn [andb Nat.eqb].
        unfold escape. rewrite Hu. cbn [map concat escape_unit].
        fold (escape t).
        rewrite IH by lia. rewrite slice_empty, flush_slice by lia.
        rewrite <- !app_assoc. reflexivity.
      * assert (Hskip : skipn size (b :: t) = skipn (i + size) s).
        { rewrite <- Hsk. rewrite skipn_skipn. f_equal. lia. }
        replace (size =? 1)%nat with false
          by (symmetry; apply Nat.eqb_neq; lia).
        rewrite andb_false_r.
        unfold escape. rewrite Hu. cbn [map concat escape_unit].
        rewrite Hskip. fold (escape (skipn (i + size) s)).
        destruct (Z.eqb_spec c 0x2028) as [-> | Hc1]; cbn [orb].
        { rewrite IH by lia. rewrite slice_empty, flush_slice by lia.
          rewrite <- !app_assoc. reflexivity. }
        destruct (Z.eqb_spec c 0x2029) as [-> | Hc2].
        { rewrite IH by lia. rewrite slice_empty, flush_slice by lia.
          rewrite <- !app_assoc. reflexivity. }
        rewrite IH by lia.
        rewrite (slice_extend s start i size) by lia.
        rewrite Hsk.
        rewrite <- !app_assoc. reflexivity.
Qed.

Lemma sanitiseString_escape (s : gostring) :
  sanitiseString s = sanitise s.
Proof.
  unfold sanitiseString, sanitise.
  rewrite (sanitise_loop_escape (length s)) by lia.
  rewrite slice_empty. reflexivity.
Qed.

Lemma units_bytes (n : nat) :
  forall s, (length s <= n)%nat -> concat (map unit_bytes (units s)) = s.
Proof.
  induction n as [|n IH]; intros s Hn.
  - destruct s; [reflexivity | simpl in Hn; lia].
  - destruct s as [|b0 t0]; [reflexivity|].
    cbn [units]. simpl in Hn.
    destruct (is_ascii b0); [cbn; rewrite IH by lia; reflexivity|].
    destruct t0 as [|b1 t1]; [reflexivity|]. simpl in Hn.
    destruct (wf2 b0 b1); [cbn; rewrite IH by lia; reflexivity|].
    destruct t1 as [|b2 t2];
      [cbn [map concat unit_bytes]; rewrite IH by (simpl; lia); reflexivity|].
    simpl in Hn.
    destruct (wf3 b0 b1 b2); [cbn; rewrite IH by lia; reflexivity|].
    destruct t2 as [|b3 t3];
      [cbn [map concat unit_bytes]; rewrite IH by (simpl; lia); reflexivity|].
    simpl in Hn.
    destruct (wf4 b0 b1 b2 b3); [cbn; rewrite IH by lia; reflexivity|].
    cbn [map concat unit_bytes]; rewrite IH by (simpl; lia); reflexivity.
Qed.
(** ** The output of the sanitiser is a JSON string literal *)

Lemma units_ok (n : nat) :
  forall s, (length s <= n)%nat -> Forall unit_ok (units s).
Proof.
  induction n as [|n IH]; intros s Hn.
  - destruct s; [constructor | simpl in Hn; lia].
  - destruct s as [|b0 t0]; [constructor|].
    cbn [units]. simpl in Hn.
    destruct (is_ascii b0) eqn:H0;
      [constructor; [now constructor | apply IH; lia]|].
    assert (Hbad : Forall unit_ok (UBad b0 :: units t0))
      by (constructor; [now constructor | apply IH; lia]).
    destruct t0 as [|b1 t1]; [exact Hbad|]. simpl in Hn.
    destruct (wf2 b0 b1) eqn:H2;
      [constructor; [now constructor | apply IH; lia]|].
    destruct t1 as [|b2 t2]; [exact Hbad|]. simpl in Hn.
    destruct (wf3 b0 b1 b2) eqn:H3;
      [constructor; [now constructor | apply IH; lia]|].
    destruct t2 as [|b3 t3]; [exact Hbad|]. simpl in Hn.
    destruct (wf4 b0 b1 b2 b3) eqn:H4;
      [constructor; [now constructor | apply IH; lia]|].
    exact Hbad.
Qed.

(** The code point of a well-formed sequence is a Unicode scalar value
    above U+007F: it is neither a surrogate nor beyond U+10FFFF. *)
Lemma unit_ok_scalar (c : Z) (bs : gostring) :
  unit_ok (URune c bs) ->
  0x80 <= c <= 0x10FFFF /\ ~ (0xD800 <= c <= 0xDFFF).
Proof.
  intros Hu. inversion Hu as [ | | b0 b1 H0 H2 | b0 b1 b2 H0 H2 H3
                             | b0 b1 b2 b3 H0 H2 H3 H4]; subst.
  - unfold wf2, cont in H2. rewrite andb_true_iff, !between_spec in H2.
    unfold cp2. lia.
  - unfold wf3, cont in H3.
    rewrite !andb_true_iff, !orb_true_iff, !andb_true_iff,
      !between_spec, !Z.eqb_eq in H3.
    unfold cp3. lia.
  - unfold wf4, cont in H4.
    rewrite !andb_true_iff, !orb_true_iff, !andb_true_iff,
      !between_spec, !Z.eqb_eq in H4.
    unfold cp4. lia.
Qed.

(** The line separator and the paragraph separator have one encoding
    each. *)
Lemma separator_encoding (c : Z) (bs : gostring) :
  unit_ok (URune c bs) ->
  (c = 0x2028 -> bs = [xe2; x80; xa8]) /\ (c = 0x2029 -> bs = [xe2; x80; xa9]).
Proof.
  intros Hu. inversion Hu as [ | | b0 b1 H0 H2 | b0 b1 b2 H0 H2 H3
                             | b0 b1 b2 b3 H0 H2 H3 H4]; subst.
  - unfold wf2, cont in H2. rewrite andb_true_iff, !between_spec in H2.
    unfold cp2. split; intros Hc; exfalso; lia.
  - unfold wf3, cont in H3.
    rewrite !andb_true_iff, !orb_true_iff, !andb_true_iff,
      !between_spec, !Z.eqb_eq in H3.
    unfold cp3. split; intros Hc.
    + assert (Hb0 : b0 = xe2) by (apply byte_val_inj; change (byte_val xe2) with 0xE2; lia).
      assert (Hb1 : b1 = x80) by (apply byte_val_inj; change (byte_val x80) with 0x80; lia).
      assert (Hb2 : b2 = xa8) by (apply byte_val_inj; change (byte_val xa8) with 0xA8; lia).
      subst. reflexivity.
    + assert (Hb0 : b0 = xe2) by (apply byte_val_inj; change (byte_val xe2) with 0xE2; lia).
      assert (Hb1 : b1 = x80) by (apply byte_val_inj; change (byte_val x80) with 0x80; lia).
      assert (Hb2 : b2 = xa9) by (apply byte_val_inj; change (byte_val xa9) with 0xA9; lia).
      subst. reflexivity.
  - unfold wf4, cont in H4.
    rewrite !andb_true_iff, !orb_true_iff, !andb_true_iff,
      !between_spec, !Z.eqb_eq in H4.
    unfold cp4. split; intros Hc; exfalso; lia.
Qed.

Lemma parse_escaped_ascii (b : byte) (rest : gostring) :
  is_ascii b = true ->
  Json.parse_chars ((if in_escape_set b then escape_ascii b else [b]) ++ rest)
  = Json.cons_char (byte_val b) (Json.parse_chars rest).
Proof. destruct b; intros Hb; first [discriminate Hb | reflexivity]. Qed.

Lemma non_ascii_unescaped (b : byte) :
  is_ascii b = false ->
  (byte_val b =? 0x22) = false /\ (byte_val b =? 0x5C) = false
  /\ (byte_val b <? 0x20) = false.
Proof.
  unfold is_ascii. intros Hb. apply Z.ltb_ge in Hb.
  repeat split; [apply Z.eqb_neq | apply Z.eqb_neq | apply Z.ltb_ge]; lia.
Qed.

Lemma parse_escape_unit (u : unit_) (rest : gostring) :
  unit_ok u ->
  Json.parse_chars (escape_unit u ++ rest)
  = Json.cons_char (unit_code_point u) (Json.parse_chars rest).
Proof.
  intros Hu. destruct Hu as [b Hb | b Hb | b0 b1 H0 H2 | b0 b1 b2 H0 H2 H3
                            | b0 b1 b2 b3 H0 H2 H3 H4];
    cbn [escape_unit unit_code_point].
  - apply parse_escaped_ascii. assumption.
  - reflexivity.
  - destruct (Z.eqb_spec (cp2 b0 b1) 0x2028) as [-> | _]; [reflexivity|].
    destruct (Z.eqb_spec (cp2 b0 b1) 0x2029) as [-> | _]; [reflexivity|].
    destruct (non_ascii_unescaped b0 H0) as (Hq & Hb & Hc).
    cbn [app Json.parse_chars]. rewrite Hq, Hb, Hc, H0, H2. reflexivity.
  - destruct (Z.eqb_spec (cp3 b0 b1 b2) 0x2028) as [-> | _]; [reflexivity|].
    destruct (Z.eqb_spec (cp3 b0 b1 b2) 0x2029) as [-> | _]; [reflexivity|].
    destruct (non_ascii_unescaped b0 H0) as (Hq & Hb & Hc).
    cbn [app Json.parse_chars]. rewrite Hq, Hb, Hc, H0, H2, H3. reflexivity.
  - destruct (Z.eqb_spec (cp4 b0 b1 b2 b3) 0x2028) as [-> | _]; [reflexivity|].
    destruct (Z.eqb_spec (cp4 b0 b1 b2 b3) 0x2029) as [-> | _]; [reflexivity|].
    destruct (non_ascii_unescaped b0 H0) as (Hq & Hb & Hc).
    cbn [app Json.parse_chars]. rewrite Hq, Hb, Hc, H0, H2, H3, H4. reflexivity.
Qed.

Lemma parse_escape_units (us : list unit_) :
  Forall unit_ok us ->
  Json.parse_chars (concat (map escape_unit us) ++ [quote])
  = Some (map unit_code_point us).
Proof.
  induction 1 as [|u us Hu _ IH]; [reflexivity|].
  cbn [map concat]. rewrite <- app_assoc, parse_escape_unit by assumption.
  rewrite IH. reflexivity.
Qed.

Lemma parse_sanitise (s : gostring) :
  Json.parse_string (sanitise s) = Some (code_points s).
Proof.
  unfold sanitise, escape, code_points. cbn [app Json.parse_string].
  change (byte_val quote =? 0x22) with true. cbv iota.
  apply parse_escape_units. apply (units_ok (length s)). lia.
Qed.

(** * Properties of the encoder *)

(** ** The order of strings and [sort.Strings] *)

Lemma string_le_refl a : string_le a a.
Proof.
  unfold string_le. induction a as [|x a IH]; [reflexivity|].
  cbn [string_leb]. rewrite Z.ltb_irrefl. assumption.
Qed.

Lemma string_le_total a b : string_le a b \/ string_le b a.
Proof.
  unfold string_le. revert b.
  induction a as [|x a IH]; intros [|y b]; cbn [string_leb]; auto.
  destruct (Z.ltb_spec (byte_val x) (byte_val y)); auto.
  destruct (Z.ltb_spec (byte_val y) (byte_val x)); auto.
Qed.

Lemma string_le_antisym a b : string_le a b -> string_le b a -> a = b.
Proof.
  unfold string_le. revert b.
  induction a as [|x a IH]; intros [|y b]; cbn [string_leb];
    try discriminate; auto.
  destruct (Z.ltb_spec (byte_val x) (byte_val y));
    destruct (Z.ltb_spec (byte_val y) (byte_val x));
    try discriminate; try lia.
  intros Hab Hba. f_equal; [apply byte_val_inj; lia | auto].
Qed.

Lemma string_le_trans a b c : string_le a b -> string_le b c -> string_le a c.
Proof.
  unfold string_le. revert b c.
  induction a as [|x a IH]; intros [|y b] [|z c]; cbn [string_leb];
    try discriminate; auto.
  destruct (Z.ltb_spec (byte_val x) (byte_val y));
    destruct (Z.ltb_spec (byte_val y) (byte_val x));
    destruct (Z.ltb_spec (byte_val y) (byte_val z));
    destruct (Z.ltb_spec (byte_val z) (byte_val y));
    destruct (Z.ltb_spec (byte_val x) (byte_val z));
    destruct (Z.ltb_spec (byte_val z) (byte_val x));
    try discriminate; try lia; auto.
  apply IH.
Qed.

Lemma insert_string_perm x l : Permutation (insert_string x l) (x :: l).
Proof.
  induction l as [|y l IH]; cbn [insert_string]; [reflexivity|].
  destruct (string_leb x y); [reflexivity|].
  rewrite IH. apply perm_swap.
Qed.

Lemma sort_Strings_perm l : Permutation (sort_Strings l) l.
Proof.
  induction l as [|x l IH]; cbn [sort_Strings]; [reflexivity|].
  rewrite insert_string_perm. constructor. assumption.
Qed.

Lemma insert_string_sorted x l :
  StronglySorted string_le l -> StronglySorted string_le (insert_string x l).
Proof.
  induction 1 as [|y l Hl IH Hy]; cbn [insert_string].
  - repeat constructor.
  - destruct (string_leb x y) eqn:Hxy.
    + constructor; [constructor; assumption|].
      constructor; [exact Hxy|].
      eapply Forall_impl; [|exact Hy].
      intros z Hz. eapply string_le_trans; eassumption.
    + constructor; [assumption|].
      assert (Hyx : string_le y x)
        by (destruct (string_le_total x y) as [Hle|Hle];
            [unfold string_le in Hle; congruence | assumption]).
      eapply Permutation_Forall;
        [symmetry; apply insert_string_perm|].
      constructor; assumption.
Qed.

Lemma sort_Strings_sorted l : StronglySorted string_le (sort_Strings l).
Proof.
  induction l as [|x l IH]; cbn [sort_Strings]; [constructor|].
  apply insert_string_sorted. assumption.
Qed.

Lemma sorted_perm_unique l1 :
  forall l2, StronglySorted string_le l1 -> StronglySorted string_le l2 ->
             Permutation l1 l2 -> l1 = l2.
Proof.
  induction l1 as [|x l1 IH]; intros l2 H1 H2 Hp.
  - apply Permutation_nil in Hp. congruence.
  - destruct l2 as [|y l2];
      [apply Permutation_sym, Permutation_nil in Hp; discriminate|].
    inversion H1 as [|? ? Hs1 Hx]; subst.
    inversion H2 as [|? ? Hs2 Hy]; subst.
    assert (Hxy : x = y).
    { apply string_le_antisym.
      - assert (Hin : In y (x :: l1))
          by (eapply Permutation_in; [symmetry; exact Hp | left; reflexivity]).
        destruct Hin as [-> | Hin]; [apply string_le_refl|].
        rewrite Forall_forall in Hx. auto.
      - assert (Hin : In x (y :: l2))
          by (eapply Permutation_in; [exact Hp | left; reflexivity]).
        destruct Hin as [-> | Hin]; [apply string_le_refl|].
        rewrite Forall_forall in Hy. auto. }
    subst y. f_equal. apply IH; try assumption.
    eapply Permutation_cons_inv. exact Hp.
Qed.

Lemma sort_Strings_permuted l l' :
  Permutation l l' -> sort_Strings l = sort_Strings l'.
Proof.
  intros Hp. apply sorted_perm_unique; try apply sort_Strings_sorted.
  rewrite !sort_Strings_perm. assumption.
Qed.

Lemma key_order_sort labels : key_order labels = sort_Strings labels.
Proof.
  unfold key_order. destruct labels as [|a [|b l]]; reflexivity.
Qed.

Lemma sorted_nodup_strict l :
  NoDup l -> StronglySorted string_le l -> StronglySorted string_lt l.
Proof.
  induction 2 as [|x l Hl IH Hx]; [constructor|].
  inversion H as [|? ? Hnin Hnd]; subst.
  constructor; [auto|].
  rewrite Forall_forall in *. intros y Hy. split; [auto|].
  intros ->. contradiction.
Qed.

(** ** Induction on trees *)

Section NodeInduction.

Variable P : Node -> Prop.
Hypothesis Hnode :
  forall d cs, Forall (fun e => Forall P (snd e)) cs -> P (mkNode d cs).

Fixpoint Node_ind (n : Node) : P n :=
  match n with
  | mkNode d cs =>
      Hnode d cs
        ((fix entries (cs : list (gostring * list Node))
            : Forall (fun e => Forall P (snd e)) cs :=
            match cs with
            | [] => Forall_nil _
            | e :: cs' =>
                Forall_cons e
                  ((fix nodes (l : list Node) : Forall P l :=
                      match l with
                      | [] => Forall_nil _
                      | n :: l' => Forall_cons n (Node_ind n) (nodes l')
                      end) (snd e))
                  (entries cs')
            end) cs)
  end.

End NodeInduction.

(** ** What every run of a method preserves *)

Section Preserves.

Context {W : Type} `{Writer W}.

Lemma set_w_same (enc : Encoder W) : set_w enc (w enc) = enc.
Proof. destruct enc; reflexivity. Qed.

(** A relation between the encoder before and after a run, which holds
    across a call of [Write] and composes. *)
Variable R : Encoder W -> Encoder W -> Prop.
Hypothesis R_refl : forall enc, R enc enc.
Hypothesis R_trans : forall e1 e2 e3, R e1 e2 -> R e2 e3 -> R e1 e3.
Hypothesis R_write : forall enc s, R enc (set_w enc (fst (Write (w enc) s))).

Lemma Preserves_ret {A} (a : A) : Preserves R (ret a).
Proof. intros enc a' enc' [= <- <-]. apply R_refl. Qed.

Lemma Preserves_read {A} (f : Encoder W -> A) : Preserves R (read f).
Proof. intros enc a' enc' [= <- <-]. apply R_refl. Qed.

Lemma Preserves_panic {A} : Preserves R (@panic W A).
Proof. intros enc a enc' [=]. Qed.

Lemma Preserves_write1 s : Preserves R (write1 s).
Proof. intros enc a enc' [= <- <-]. apply R_write. Qed.

Lemma Preserves_bind {A B} (m : M W A) (k : A -> M W B) :
  Preserves R m -> (forall a, Preserves R (k a)) -> Preserves R (bind m k).
Proof.
  intros Hm Hk enc b enc'. unfold bind.
  destruct (m enc) as [[a e1]|] eqn:Hrun; [|discriminate].
  intros Hrun'. apply Hm in Hrun. apply Hk in Hrun'.
  eapply R_trans; eassumption.
Qed.

Lemma Preserves_for_each {A} (f : A -> M W unit) l :
  (forall a, Preserves R (f a)) -> Preserves R (for_each f l).
Proof.
  intros Hf. induction l as [|a l IH]; cbn [for_each].
  - apply Preserves_ret.
  - apply Preserves_bind; auto.
Qed.

Lemma Preserves_write ss : Preserves R (write ss).
Proof. apply Preserves_for_each. apply Preserves_write1. Qed.

Lemma Preserves_times n (m : M W unit) : Preserves R m -> Preserves R (times n m).
Proof.
  intros Hm. induction n as [|n IH]; cbn [times].
  - apply Preserves_ret.
  - apply Preserves_bind; auto.
Qed.

Lemma Preserves_when c (m : M W unit) : Preserves R m -> Preserves R (when c m).
Proof. intros Hm. destruct c; [assumption | apply Preserves_ret]. Qed.

Lemma Preserves_indentN n : Preserves R (indentN n).
Proof.
  unfold indentN. apply Preserves_bind; [apply Preserves_read|]. intros ind.
  apply Preserves_when, Preserves_times, Preserves_bind; [apply Preserves_read|].
  intros it. apply Preserves_write.
Qed.

Lemma Preserves_for_each_with {A S} (f : S -> A -> M W S) l :
  Forall (fun a => forall com, Preserves R (f com a)) l ->
  forall com, Preserves R (for_each_with f com l).
Proof.
  induction 1 as [|a l Ha _ IH]; intros com; cbn [for_each_with].
  - apply Preserves_ret.
  - apply Preserves_bind; auto.
Qed.

Lemma Preserves_with_lookup {V A} label (k : list V -> M W A) m :
  Preserves R (k []) -> Forall (fun e => Preserves R (k (snd e))) m ->
  Preserves R (with_lookup label k m).
Proof.
  intros Hnil. induction 1 as [|[l children] m He _ IH]; cbn [with_lookup].
  - assumption.
  - destruct (list_eq_dec Byte.byte_eq_dec l label); assumption.
Qed.

Ltac preserves :=
  repeat first
    [ apply Preserves_write | apply Preserves_indentN | apply Preserves_read
    | apply Preserves_when | apply Preserves_ret | apply Preserves_panic
    | apply Preserves_bind; [|intros ?] ].

(** The loop of [format] over the keys, given the induction hypothesis on
    the children. *)
Lemma Preserves_entries cs lvl :
  Forall (fun e => Forall (fun n => forall lvl, Preserves R (format n lvl)) (snd e)) cs ->
  forall sl com,
    Preserves R
      (for_each_with (fun com label =>
         with_lookup label (fun children =>
           write [com] ;;
           indentN (lvl + 1) ;;
           write [[quote]; label; quote :: str ": "] ;;
           (if (1 <? length children)%nat then
              write [str "["] ;;
              for_each_with (fun com1 ch =>
                write [com1] ;;
                format ch (lvl + 2) ;;
                ret (str ", ")) (str "") children ;;
              write [str "]"]
            else
              match children with
              | ch :: _ => format ch (lvl + 1) ;; ret tt
              | [] => panic
              end) ;;
           ind <- read indent ;;
           ret (if ind then str "," ++ [newline] else str ", "))
           cs) com sl).
Proof.
  intros IH sl. apply Preserves_for_each_with.
  apply Forall_forall. intros label _ com.
  apply Preserves_with_lookup; [preserves|].
  eapply Forall_impl; [|exact IH]. cbv beta. intros [l children] Hch.
  cbn [snd] in *. preserves.
  destruct (1 <? length children)%nat.
  - preserves. apply Preserves_for_each_with.
    eapply Forall_impl; [|exact Hch]. cbv beta. intros ch Hc com1.
    preserves. apply Hc.
  - destruct Hch as [|ch children Hc _]; [apply Preserves_panic|].
    apply Preserves_bind; [apply Hc | intros; apply Preserves_ret].
Qed.

Lemma format_Preserves (n : Node) : forall lvl, Preserves R (format n lvl).
Proof.
  induction n as [d cs IH] using Node_ind. intros lvl.
  cbn [format]. apply Preserves_bind; [|intros; apply Preserves_ret].
  destruct (HasChildren (mkNode d cs)); [|apply Preserves_write].
  preserves. apply Preserves_entries. exact IH.
Qed.

End Preserves.

Lemma format_Frame {W} `{Writer W} (n : Node) (lvl : nat) :
  Frame (format n lvl).
Proof.
  apply format_Preserves.
  - intros enc. symmetry. apply set_w_same.
  - intros e1 e2 e3 -> ->. reflexivity.
  - intros enc s. reflexivity.
Qed.

Lemma Appends_relation :
  (forall enc : Encoder gostring, exists t, enc = set_w enc (w enc ++ t))
  /\ (forall e1 e2 e3 : Encoder gostring,
        (exists t, e2 = set_w e1 (w e1 ++ t)) ->
        (exists t, e3 = set_w e2 (w e2 ++ t)) ->
        exists t, e3 = set_w e1 (w e1 ++ t))
  /\ (forall (enc : Encoder gostring) s,
        exists t, set_w enc (fst (Write (w enc) s)) = set_w enc (w enc ++ t)).
Proof.
  split; [|split].
  - intros enc. exists []. rewrite app_nil_r. symmetry. apply set_w_same.
  - intros e1 e2 e3 [t1 ->] [t2 ->]. exists (t1 ++ t2).
    cbn. rewrite app_assoc. reflexivity.
  - intros enc s. exists s. reflexivity.
Qed.

Lemma format_Appends (n : Node) (lvl : nat) : Appends (format n lvl).
Proof.
  destruct Appends_relation as (Hrefl & Htrans & Hwrite).
  apply format_Preserves; assumption.
Qed.

(** ** What a method writes *)

Section Writes.

Context {W : Type} `{Writer W}.

Variable enc : Encoder W.

Lemma Writes_ret {A} (a : A) : Writes enc (ret a) a [].
Proof. exists []. split; reflexivity. Qed.

Lemma Writes_read {A} (f : Encoder W -> A) :
  (forall w0, f (set_w enc w0) = f enc) -> Writes enc (read f) (f enc) [].
Proof.
  intros Hf. exists []. split; [reflexivity|].
  intros w0. unfold read. rewrite Hf. reflexivity.
Qed.

Lemma Writes_write1 s : Writes enc (write1 s) tt s.
Proof. exists [s]. split; [apply app_nil_r | reflexivity]. Qed.

Lemma Writes_bind {A B} (m : M W A) (k : A -> M W B) a b t1 t2 :
  Writes enc m a t1 -> Writes enc (k a) b t2 ->
  Writes enc (bind m k) b (t1 ++ t2).
Proof.
  intros (c1 & <- & H1) (c2 & <- & H2). exists (c1 ++ c2).
  split; [apply concat_app|].
  intros w0. unfold bind. rewrite H1, H2.
  unfold replay. rewrite fold_left_app. reflexivity.
Qed.

Lemma Writes_eq {A} (m : M W A) a t t' :
  Writes enc m a t -> t = t' -> Writes enc m a t'.
Proof. intros Hm <-. assumption. Qed.

Lemma Writes_write ss : Writes enc (write ss) tt (concat ss).
Proof.
  induction ss as [|s ss IH]; cbn [write for_each concat].
  - apply Writes_ret.
  - eapply Writes_bind; [apply Writes_write1 | exact IH].
Qed.

Lemma Writes_times n (m : M W unit) t :
  Writes enc m tt t -> Writes enc (times n m) tt (concat (repeat t n)).
Proof.
  intros Hm. induction n as [|n IH]; cbn [times repeat concat].
  - apply Writes_ret.
  - eapply Writes_bind; eassumption.
Qed.

Lemma Writes_when (c : bool) (m : M W unit) t :
  Writes enc m tt t -> Writes enc (when c m) tt (if c then t else []).
Proof. intros Hm. destruct c; [assumption | apply Writes_ret]. Qed.

Lemma Writes_indentN n : Writes enc (indentN n) tt (indent_text enc n).
Proof.
  unfold indentN, indent_text.
  eapply Writes_eq.
  - eapply Writes_bind; [apply Writes_read; reflexivity|].
    apply Writes_when, Writes_times.
    eapply Writes_bind; [apply Writes_read; reflexivity | apply Writes_write].
  - cbn [concat app]. rewrite app_nil_r. reflexivity.
Qed.


End Writes.

Lemma replay_buffer (cs : list gostring) (b : gostring) :
  replay cs b = b ++ concat cs.
Proof.
  revert b. induction cs as [|c cs IH]; intros b; cbn [replay fold_left concat].
  - symmetry. apply app_nil_r.
  - unfold replay in IH. rewrite IH. cbn [Write Buffer fst].
    rewrite <- app_assoc. reflexivity.
Qed.

Lemma Writes_emits (enc : Encoder gostring) {A} (m : M gostring A) a t :
  Writes enc m a t -> emits enc m t.
Proof.
  intros (cs & <- & Hm). exists a. intros b.
  rewrite Hm, replay_buffer. reflexivity.
Qed.

Lemma emits_unique (enc : Encoder gostring) {A} (m : M gostring A) t t' :
  emits enc m t -> emits enc m t' -> t = t'.
Proof.
  intros [a Ha] [a' Ha']. specialize (Ha []). rewrite Ha' in Ha.
  injection Ha as _ Ht. symmetry. exact Ht.
Qed.

(** ** The text of a container *)

Section FormatText.

Context {W : Type} `{Writer W}.
Variable enc : Encoder W.

Lemma with_lookup_lookup {V B} label (k : list V -> B) m :
  with_lookup label k m
  = k (match lookup label m with Some c => c | None => [] end).
Proof.
  induction m as [|[l children] m IH]; cbn [with_lookup lookup]; [reflexivity|].
  destruct (list_eq_dec Byte.byte_eq_dec l label); [reflexivity | exact IH].
Qed.

(** A loop whose body writes the pending separator and an item, and
    leaves [sep] as the next separator. *)
Lemma Writes_for_each_with {A} (f : gostring -> A -> M W gostring)
    (item : A -> gostring -> Prop) (sep : gostring) :
  (forall com a t, item a t -> Writes enc (f com a) sep (com ++ t)) ->
  forall l ts com,
    Forall2 item l ts ->
    Writes enc (for_each_with f com l) tt (join_from com sep ts).
Proof.
  intros Hf l ts com Hl. revert com.
  induction Hl as [|a t l ts Ha _ IH]; intros com;
    cbn [for_each_with join_from].
  - apply Writes_ret.
  - eapply Writes_eq.
    + eapply Writes_bind; [apply Hf; exact Ha | apply IH].
    + rewrite <- app_assoc. reflexivity.
Qed.

Lemma Forall2_combine_map {A B C} (R : A -> B -> Prop) (f : A * B -> C)
    (l : list A) (l' : list B) :
  Forall2 R l l' ->
  Forall2 (fun a c => exists b, R a b /\ c = f (a, b)) l (map f (combine l l')).
Proof.
  induction 1 as [|a b l l' Hab _ IH]; cbn [combine map]; constructor; eauto.
Qed.

Lemma format_container (d : gostring) (cs : list (gostring * list Node))
    (lvl : nat) (values : list gostring) :
  cs <> [] ->
  Forall2 (LabelText enc lvl cs) (key_order (map fst cs)) values ->
  Writes enc (format (mkNode d cs) lvl) None
    (object_text enc lvl d (combine (key_order (map fst cs)) values)).
Proof.
  intros Hcs Hentries.
  apply (Forall2_combine_map _ (entry_text enc lvl)) in Hentries.
  cbn [format].
  replace (HasChildren (mkNode d cs)) with true
    by (destruct cs; [contradiction | reflexivity]).
  cbn [Data Children]. fold (key_order (map fst cs)).
  eapply Writes_eq.
  - eapply Writes_bind; [|apply Writes_ret].
    eapply Writes_bind; [apply Writes_write|].
    eapply Writes_bind; [apply Writes_read; reflexivity|].
    eapply Writes_bind; [apply Writes_when, Writes_write|].
    eapply Writes_bind.
    { apply Writes_when.
      eapply Writes_bind; [apply Writes_indentN|].
      eapply Writes_bind; [apply Writes_read; reflexivity|].
      eapply Writes_bind; [apply Writes_write|].
      eapply Writes_bind; [apply Writes_read; reflexivity|].
      apply Writes_when, Writes_write. }
    eapply Writes_bind.
    { eapply (Writes_for_each_with _ _ (sep_text enc)); [|exact Hentries].
      intros com label e (v & (children & Hlook & Hval) & ->).
      rewrite with_lookup_lookup, Hlook.
      destruct Hval as [ch v Hv | children elems Hlen Helems].
      - cbn [length Nat.ltb Nat.leb].
        eapply Writes_eq.
        + eapply Writes_bind; [apply Writes_write|].
          eapply Writes_bind; [apply Writes_indentN|].
          eapply Writes_bind; [apply Writes_write|].
          eapply Writes_bind;
            [eapply Writes_bind; [exact Hv | apply Writes_ret]|].
          eapply Writes_bind;
            [apply Writes_read; reflexivity | apply Writes_ret].
        + unfold entry_text. cbn [fst snd concat].
          rewrite ?app_nil_r, <- ?app_assoc; cbn [app];
            rewrite ?app_nil_r, <- ?app_assoc; reflexivity.
      - replace (1 <? length children)%nat with true
          by (symmetry; apply Nat.ltb_lt; assumption).
        eapply Writes_eq.
        + eapply Writes_bind; [apply Writes_write|].
          eapply Writes_bind; [apply Writes_indentN|].
          eapply Writes_bind; [apply Writes_write|].
          eapply Writes_bind.
          { eapply Writes_bind; [apply Writes_write|].
            eapply Writes_bind; [|apply Writes_write].
            eapply (Writes_for_each_with _ _ (str ", ")); [|exact Helems].
            intros com1 ch t Hch. cbv beta in Hch.
            eapply Writes_eq.
            - eapply Writes_bind; [apply Writes_write|].
              eapply Writes_bind; [exact Hch | apply Writes_ret].
            - cbn [concat]. rewrite !app_nil_r. reflexivity. }
          eapply Writes_bind;
            [apply Writes_read; reflexivity | apply Writes_ret].
        + unfold entry_text, array_text, join. cbn [fst snd concat].
          rewrite ?app_nil_r, <- ?app_assoc; cbn [app];
            rewrite ?app_nil_r, <- ?app_assoc; reflexivity. }
    eapply Writes_bind; [apply Writes_write|].
    eapply Writes_bind; [apply Writes_indentN | apply Writes_write].
  - unfold object_text, entries_text, content_text, nl_text, join.
    cbn [concat]. rewrite ?app_nil_r.
    destruct (indent enc); destruct (0 <? length d)%nat;
      cbn [concat app]; rewrite ?app_nil_r, <- ?app_assoc; cbn [app];
      rewrite ?app_nil_r, <- ?app_assoc; reflexivity.
Qed.
End FormatText.

(** ** Lookups in the map *)

Lemma lookup_in {V} label (m : list (gostring * list V)) :
  In label (map fst m) ->
  exists children, lookup label m = Some children /\ In (label, children) m.
Proof.
  induction m as [|[l c] m IH]; cbn [map fst In lookup]; [contradiction|].
  intros Hin. destruct (list_eq_dec Byte.byte_eq_dec l label) as [-> | Hne].
  - exists c. auto.
  - destruct Hin as [Heq | Hin]; [contradiction|].
    destruct (IH Hin) as (c' & Hl & Hc). eauto.
Qed.

Lemma lookup_nodup {V} label children (m : list (gostring * list V)) :
  NoDup (map fst m) -> In (label, children) m -> lookup label m = Some children.
Proof.
  induction m as [|[l c] m IH]; cbn [map fst In lookup]; [contradiction|].
  intros Hnd Hin. inversion Hnd as [|? ? Hnin Hnd']; subst.
  destruct Hin as [[= -> ->] | Hin].
  - destruct (list_eq_dec Byte.byte_eq_dec label label); congruence.
  - destruct (list_eq_dec Byte.byte_eq_dec l label) as [-> | Hne]; [|auto].
    exfalso. apply Hnin. apply (in_map fst) in Hin. exact Hin.
Qed.

Lemma lookup_none {V} label (m : list (gostring * list V)) :
  ~ In label (map fst m) -> lookup label m = None.
Proof.
  induction m as [|[l c] m IH]; cbn [map fst In lookup]; [reflexivity|].
  intros Hnin. destruct (list_eq_dec Byte.byte_eq_dec l label); tauto.
Qed.

Lemma lookup_permuted {V} label (m m' : list (gostring * list V)) :
  NoDup (map fst m) -> Permutation m m' -> lookup label m = lookup label m'.
Proof.
  intros Hnd Hp.
  assert (Hnd' : NoDup (map fst m'))
    by (eapply Permutation_NoDup; [apply Permutation_map; exact Hp | exact Hnd]).
  destruct (in_dec (list_eq_dec Byte.byte_eq_dec) label (map fst m)) as [Hin | Hnin].
  - destruct (lookup_in label m Hin) as (c & Hl & Hc). rewrite Hl.
    symmetry. apply lookup_nodup; [assumption|].
    eapply Permutation_in; eassumption.
  - rewrite (lookup_none label m Hnin). symmetry. apply lookup_none.
    intros Hin. apply Hnin.
    eapply Permutation_in; [symmetry; apply Permutation_map; exact Hp | exact Hin].
Qed.

Lemma Forall_exists_Forall2 {A B} (R : A -> B -> Prop) (l : list A) :
  Forall (fun a => exists b, R a b) l -> exists l', Forall2 R l l'.
Proof.
  induction 1 as [|a l [b Hab] _ [l' IH]].
  - exists []. constructor.
  - exists (b :: l'). constructor; assumption.
Qed.

Lemma well_formed_entry d cs label children :
  well_formed (mkNode d cs) = true -> In (label, children) cs ->
  children <> [] /\ Forall (fun ch => well_formed ch = true) children.
Proof.
  cbn [well_formed Children]. rewrite forallb_forall. intros Hwf Hin.
  specialize (Hwf _ Hin). cbn [snd] in Hwf.
  destruct children as [|ch children]; [discriminate|].
  split; [discriminate|]. apply Forall_forall. rewrite forallb_forall in Hwf.
  exact Hwf.
Qed.

(** ** A well-formed tree is written without a panic *)

Section FormatTotal.

Context {W : Type} `{Writer W}.
Variable enc : Encoder W.

Lemma format_leaf d lvl :
  Writes enc (format (mkNode d []) lvl) None (sanitiseString d).
Proof.
  cbn [format HasChildren Children length Nat.ltb Nat.leb Data].
  eapply Writes_eq.
  - eapply Writes_bind; [apply Writes_write | apply Writes_ret].
  - cbn [concat]. rewrite !app_nil_r. reflexivity.
Qed.

Lemma value_text_exists lvl children :
  children <> [] ->
  Forall (fun ch => forall lvl, exists t, Writes enc (format ch lvl) None t)
         children ->
  exists v, ValueText enc lvl children v.
Proof.
  intros Hne Hch. destruct children as [|ch [|ch' children]]; [contradiction| |].
  - inversion Hch as [|? ? Hc _]; subst.
    destruct (Hc (lvl + 1)%nat) as [v Hv]. exists v. constructor. exact Hv.
  - assert (Hex : Forall (fun ch => exists t,
                     Writes enc (format ch (lvl + 2)) None t)
                         (ch :: ch' :: children))
      by (eapply Forall_impl; [|exact Hch]; cbv beta; auto).
    apply Forall_exists_Forall2 in Hex. destruct Hex as [elems Helems].
    exists (array_text elems). constructor; [cbn [length]; lia | exact Helems].
Qed.

Lemma label_texts_exist d cs lvl :
  well_formed (mkNode d cs) = true ->
  Forall (fun e => Forall (fun ch => forall lvl, exists t,
                      Writes enc (format ch lvl) None t) (snd e)) cs ->
  exists values, Forall2 (LabelText enc lvl cs) (key_order (map fst cs)) values.
Proof.
  intros Hwf IH. apply Forall_exists_Forall2. apply Forall_forall.
  intros label Hin. rewrite key_order_sort in Hin.
  apply (Permutation_in _ (sort_Strings_perm _)) in Hin.
  destruct (lookup_in label cs Hin) as (children & Hlook & Hentry).
  destruct (well_formed_entry d cs label children Hwf Hentry) as [Hne _].
  rewrite Forall_forall in IH. specialize (IH _ Hentry). cbn [snd] in IH.
  destruct (value_text_exists lvl children Hne IH) as [v Hv].
  exists v, children. auto.
Qed.

Lemma format_total (n : Node) :
  well_formed n = true ->
  forall lvl, exists t, Writes enc (format n lvl) None t.
Proof.
  induction n as [d cs IH] using Node_ind. intros Hwf lvl.
  destruct cs as [|e cs]; [eexists; apply format_leaf|].
  assert (IH' : Forall (fun e => Forall (fun ch => forall lvl, exists t,
                          Writes enc (format ch lvl) None t) (snd e)) (e :: cs)).
  { apply Forall_forall. intros [l c] Hin. cbn [snd].
    rewrite Forall_forall in IH. specialize (IH _ Hin). cbn [snd] in IH.
    destruct (well_formed_entry d _ l c Hwf Hin) as [_ Hc].
    rewrite Forall_forall in *. auto. }
  destruct (label_texts_exist d (e :: cs) lvl Hwf IH') as [values Hvalues].
  eexists. apply format_container; [discriminate | exact Hvalues].
Qed.

(** The texts of the entries of a well-formed container. *)
Lemma container_texts d cs lvl :
  well_formed (mkNode d cs) = true ->
  exists values, Forall2 (LabelText enc lvl cs) (key_order (map fst cs)) values.
Proof.
  intros Hwf. apply (label_texts_exist d cs lvl Hwf).
  apply Forall_forall. intros [l c] Hin. cbn [snd].
  destruct (well_formed_entry d _ l c Hwf Hin) as [_ Hc].
  eapply Forall_impl; [|exact Hc]. cbv beta. intros ch Hch.
  apply format_total. exact Hch.
Qed.

End FormatTotal.

(** ** Encode *)

Section EncodeTheory.

Context {W : Type} `{Writer W}.

Lemma bind_ret_value {A B} (m : M W A) (b : B) (enc : Encoder W) r enc' :
  bind m (fun _ => ret b) enc = Some (r, enc') -> r = b.
Proof.
  unfold bind, ret. destruct (m enc) as [[a e]|]; congruence.
Qed.

Lemma format_returns_nil n lvl (enc : Encoder W) r enc' :
  format n lvl enc = Some (r, enc') -> r = None.
Proof. destruct n as [d cs]. cbn [format]. apply bind_ret_value. Qed.

Lemma Encode_frame root (enc : Encoder W) r enc' :
  Encode root enc = Some (r, enc') ->
  enc' = set_w enc (w enc') /\ (err enc = None -> r = None).
Proof.
  unfold Encode, bind at 1, read at 1.
  destruct (err enc) as [e|] eqn:Herr.
  - intros [= <- <-]. split; [symmetry; apply set_w_same | discriminate].
  - destruct root as [n|].
    + unfold bind at 1.
      destruct (format n 0 enc) as [[r0 e1]|] eqn:Hfmt; [|discriminate].
      pose proof (format_returns_nil _ _ _ _ _ Hfmt) as ->.
      apply format_Frame in Hfmt.
      cbn. intros [= <- <-]. split; [|reflexivity].
      rewrite Hfmt. destruct enc. cbn in *. subst. reflexivity.
    + intros [= <- <-]. split; [symmetry; apply set_w_same | reflexivity].
Qed.

Lemma Encode_writes (enc : Encoder W) n body :
  err enc = None ->
  Writes enc (format n 0) None body ->
  Writes enc (Encode (Some n)) None (body ++ [newline]).
Proof.
  intros Herr Hbody. unfold Encode.
  eapply Writes_eq.
  - eapply Writes_bind; [apply Writes_read; reflexivity|].
    rewrite Herr.
    eapply Writes_bind; [exact Hbody|].
    eapply Writes_bind.
    { exists []. split; [reflexivity|]. intros w0.
      unfold set_err, set_w. cbn. rewrite Herr. reflexivity. }
    eapply Writes_bind; [apply Writes_write|].
    rewrite <- Herr. apply Writes_read. reflexivity.
  - cbn [concat app]. rewrite ?app_nil_r. reflexivity.
Qed.

Lemma Encode_nil (enc : Encoder W) :
  err enc = None -> Encode None enc = Some (None, enc).
Proof. intros Herr. unfold Encode, bind, read, ret. rewrite Herr. reflexivity. Qed.

Lemma Encode_poisoned root (enc : Encoder W) e :
  err enc = Some e -> Encode root enc = Some (Some e, enc).
Proof. intros Herr. unfold Encode, bind, read, ret. rewrite Herr. reflexivity. Qed.

End EncodeTheory.

Lemma Writes_buffer (enc : Encoder gostring) {A} (m : M gostring A) a t :
  Writes enc m a t -> m enc = Some (a, set_w enc (w enc ++ t)).
Proof.
  intros (cs & <- & Hm). rewrite <- replay_buffer, <- Hm, set_w_same.
  reflexivity.
Qed.

(** The text of a tree ends with its last structural token: the closing
    quote of a leaf or the closing brace of a container. *)
Lemma format_text_closed {W} `{Writer W} (enc : Encoder W) n lvl :
  well_formed n = true ->
  exists t last,
    Writes enc (format n lvl) None (t ++ [last])
    /\ (last = quote \/ last = "}"%byte).
Proof.
  intros Hwf. destruct n as [d [|e cs]].
  - exists ([quote] ++ escape d), quote. split; [|auto].
    eapply Writes_eq; [apply format_leaf|].
    rewrite sanitiseString_escape. unfold sanitise.
    rewrite <- app_assoc. reflexivity.
  - destruct (container_texts enc d (e :: cs) lvl Hwf) as [values Hvalues].
    eexists _, "}"%byte. split; [|auto].
    eapply Writes_eq;
      [apply format_container; [discriminate | exact Hvalues]|].
    unfold object_text, entries_text.
    change (str "}") with ["}"%byte].
    rewrite !app_assoc. reflexivity.
Qed.

(** ** The claims on the text of a container *)

Lemma join_from_middle com sep a x b :
  exists pre, join_from com sep (a ++ x :: b) = pre ++ x ++ join_from sep sep b.
Proof.
  revert com. induction a as [|y a IH]; intros com; cbn [app join_from].
  - exists com. reflexivity.
  - destruct (IH sep) as [pre Hpre]. exists (com ++ y ++ pre).
    rewrite Hpre, <- !app_assoc. reflexivity.
Qed.

Lemma combine_middle {A B} (l1 : list A) a l2 (l1' : list B) b l2' :
  length l1 = length l1' ->
  combine (l1 ++ a :: l2) (l1' ++ b :: l2')
  = combine l1 l1' ++ (a, b) :: combine l2 l2'.
Proof.
  revert l1'. induction l1 as [|x l1 IH]; intros [|y l1'] Hlen;
    cbn in Hlen; try discriminate; cbn [app combine]; [reflexivity|].
  f_equal. apply IH. lia.
Qed.

Lemma ValueText_emits (enc : Encoder gostring) lvl children v :
  ValueText enc lvl children v ->
  (forall ch, children = [ch] -> emits enc (format ch (lvl + 1)) v)
  /\ ((1 < length children)%nat ->
      exists elems,
        Forall2 (fun ch t => emits enc (format ch (lvl + 2)) t) children elems
        /\ v = array_text elems).
Proof.
  intros [ch v' Hv | children' elems Hlen Helems]; split.
  - intros ch' [= <-]. eapply Writes_emits. exact Hv.
  - cbn [length]. lia.
  - intros ch ->. cbn [length] in Hlen. lia.
  - intros _. exists elems. split; [|reflexivity].
    eapply Forall2_impl; [|exact Helems]. cbv beta.
    intros ch t Hch. eapply Writes_emits. exact Hch.
Qed.

(** C2. In the text of a container, the key of every label is followed by
    the value of the label: for a single child, the text of that child,
    written one level down, with no array around it; for n > 1 children,
    a JSON array of the n texts of the children, each written on its own
    two levels down, in the order of the sequence. *)
Theorem format_label_value (enc : Encoder gostring) d cs lvl label children :
  well_formed (mkNode d cs) = true ->
  NoDup (map fst cs) ->
  In (label, children) cs ->
  exists pre value post,
    emits enc (format (mkNode d cs) lvl)
      (pre ++ ([quote] ++ label ++ quote :: str ": ") ++ value ++ post)
    /\ (forall ch, children = [ch] -> emits enc (format ch (lvl + 1)) value)
    /\ ((1 < length children)%nat ->
        exists elems,
          Forall2 (fun ch t => emits enc (format ch (lvl + 2)) t) children elems
          /\ length elems = length children
          /\ value = str "[" ++ join (str ", ") elems ++ str "]").
Proof.
  intros Hwf Hnd Hin.
  destruct (container_texts enc d cs lvl Hwf) as [values Hvalues].
  assert (Hcs : cs <> []) by (intros ->; contradiction).
  pose proof (format_container enc d cs lvl values Hcs Hvalues) as Hfmt.
  assert (Hkey : In label (key_order (map fst cs))).
  { rewrite key_order_sort.
    eapply Permutation_in; [symmetry; apply sort_Strings_perm|].
    apply (in_map fst) in Hin. exact Hin. }
  apply in_split in Hkey. destruct Hkey as (k1 & k2 & Hkeys).
  rewrite Hkeys in Hvalues, Hfmt.
  destruct (Forall2_app_inv_l _ _ Hvalues) as (v1 & v' & Hv1 & Hv' & ->).
  inversion Hv' as [|? v ? v2 Hlabel Hv2]; subst.
  destruct Hlabel as (children' & Hlook & Hval).
  rewrite (lookup_nodup label children cs Hnd Hin) in Hlook.
  injection Hlook as <-.
  rewrite combine_middle in Hfmt by (eapply Forall2_length; exact Hv1).
  unfold object_text, entries_text, join in Hfmt.
  rewrite map_app in Hfmt. cbn [map] in Hfmt.
  destruct (join_from_middle [] (sep_text enc)
              (map (entry_text enc lvl) (combine k1 v1))
              (entry_text enc lvl (label, v))
              (map (entry_text enc lvl) (combine k2 v2))) as [pre Hpre].
  rewrite Hpre in Hfmt. unfold entry_text at 1 in Hfmt. cbn [fst snd] in Hfmt.
  destruct (ValueText_emits enc lvl children v Hval) as [Hsingle Harray].
  exists (str "{" ++ nl_text enc ++ content_text enc lvl d ++ pre
          ++ indent_text enc (lvl + 1)), v,
         (join_from (sep_text enc) (sep_text enc)
            (map (entry_text enc lvl) (combine k2 v2))
          ++ [newline] ++ indent_text enc lvl ++ str "}").
  split; [|split].
  - eapply Writes_emits. eapply Writes_eq; [exact Hfmt|].
    rewrite <- !app_assoc. reflexivity.
  - exact Hsingle.
  - intros Hlen. destruct (Harray Hlen) as (elems & Helems & ->).
    exists elems. split; [exact Helems|].
    split; [symmetry; eapply Forall2_length; exact Helems | reflexivity].
Qed.

Section Permuted.

Context {W : Type} `{Writer W}.

Lemma bind_ext {A B} (m : M W A) (k k' : A -> M W B) enc :
  (forall a e, k a e = k' a e) -> bind m k enc = bind m k' enc.
Proof.
  intros Hk. unfold bind. destruct (m enc) as [[a e]|]; [apply Hk | reflexivity].
Qed.

Lemma bind_ext_l {A B} (m m' : M W A) (k : A -> M W B) enc :
  m enc = m' enc -> bind m k enc = bind m' k enc.
Proof. intros Hm. unfold bind. rewrite Hm. reflexivity. Qed.

Lemma for_each_with_ext {A S} (f g : S -> A -> M W S) :
  (forall com a, f com a = g com a) ->
  forall l com enc, for_each_with f com l enc = for_each_with g com l enc.
Proof.
  intros Hfg. induction l as [|a l IH]; intros com enc;
    cbn [for_each_with]; [reflexivity|].
  rewrite Hfg. apply bind_ext. intros com' e. apply IH.
Qed.

(** The order in which the map is visited does not matter. *)
Lemma format_permuted d cs cs' lvl (enc : Encoder W) :
  NoDup (map fst cs) -> Permutation cs cs' ->
  format (mkNode d cs') lvl enc = format (mkNode d cs) lvl enc.
Proof.
  intros Hnd Hp. cbn [format]. apply bind_ext_l.
  unfold HasChildren. cbn [Children Data].
  rewrite <- (Permutation_length Hp).
  destruct (0 <? length cs)%nat; [|reflexivity].
  fold (key_order (map fst cs')). fold (key_order (map fst cs)).
  rewrite !key_order_sort.
  rewrite <- (sort_Strings_permuted (map fst cs) (map fst cs'))
    by (apply Permutation_map; exact Hp).
  do 4 (apply bind_ext; intros ? ?).
  apply bind_ext_l. apply for_each_with_ext.
  intros com label. rewrite !with_lookup_lookup.
  rewrite (lookup_permuted label cs cs' Hnd Hp). reflexivity.
Qed.

End Permuted.

(** C3. The keys of a container are emitted in the lexicographic
    (byte-wise) order of its labels: the sorted permutation of the labels,
    strictly increasing.  The text is the same for every order in which
    the map holds, or is visited for, its entries; and with a single label
    the list of keys is the list as collected. *)
Theorem format_key_order d cs lvl :
  well_formed (mkNode d cs) = true ->
  NoDup (map fst cs) ->
  cs <> [] ->
  let keys := sort_Strings (map fst cs) in
  Permutation keys (map fst cs)
  /\ StronglySorted string_lt keys
  /\ (forall enc : Encoder gostring,
        exists values,
          length values = length keys
          /\ emits enc (format (mkNode d cs) lvl)
               (str "{" ++ nl_text enc ++ content_text enc lvl d
                ++ join (sep_text enc)
                     (map (entry_text enc lvl) (combine keys values))
                ++ [newline] ++ indent_text enc lvl ++ str "}"))
  /\ (forall cs', Permutation cs cs' ->
        forall (W : Type) (HW : Writer W) (enc : Encoder W),
          format (mkNode d cs') lvl enc = format (mkNode d cs) lvl enc)
  /\ ((length cs <= 1)%nat -> key_order (map fst cs) = map fst cs).
Proof.
  intros Hwf Hnd Hcs keys. split; [apply sort_Strings_perm|].
  split.
  { apply sorted_nodup_strict; [|apply sort_Strings_sorted].
    eapply Permutation_NoDup; [symmetry; apply sort_Strings_perm | exact Hnd]. }
  split.
  { intros enc.
    destruct (container_texts enc d cs lvl Hwf) as [values Hvalues].
    pose proof (format_container enc d cs lvl values Hcs Hvalues) as Hfmt.
    rewrite key_order_sort in Hvalues, Hfmt. fold keys in Hvalues, Hfmt.
    exists values. split; [symmetry; eapply Forall2_length; exact Hvalues|].
    eapply Writes_emits. exact Hfmt. }
  split.
  { intros cs' Hp W HW enc. apply format_permuted; assumption. }
  intros Hlen. unfold key_order.
  rewrite length_map.
  replace (1 <? length cs)%nat with false
    by (symmetry; apply Nat.ltb_ge; exact Hlen).
  reflexivity.
Qed.

(** C7, as the code has it.  A container with non-empty [Data] opens with
    the content key, the content prefix followed by [content], whose value
    is the sanitised [Data]; the key is followed by a comma and a space
    and, when indenting, by a newline; the entries of the child labels
    come after it, exactly as a container without [Data] writes them. *)
Theorem format_content_first (enc : Encoder gostring) d cs lvl :
  well_formed (mkNode d cs) = true ->
  cs <> [] ->
  d <> [] ->
  exists rest,
    emits enc (format (mkNode d cs) lvl)
      (str "{" ++ nl_text enc
       ++ indent_text enc (lvl + 1)
       ++ ([quote] ++ contentPrefix enc ++ str "content" ++ quote :: str ": ")
       ++ sanitiseString d
       ++ (str ", " ++ nl_text enc)
       ++ rest)
    /\ emits enc (format (mkNode [] cs) lvl) (str "{" ++ nl_text enc ++ rest)
    /\ (contentPrefix enc = default_contentPrefix ->
        [quote] ++ contentPrefix enc ++ str "content" ++ quote :: str ": "
        = quote :: str "content" ++ quote :: str ": ").
Proof.
  intros Hwf Hcs Hd.
  destruct (container_texts enc d cs lvl Hwf) as [values Hvalues].
  pose proof (format_container enc d cs lvl values Hcs Hvalues) as Hfmt.
  pose proof (format_container enc [] cs lvl values Hcs Hvalues) as Hfmt0.
  exists (entries_text enc lvl (combine (key_order (map fst cs)) values)).
  split; [|split].
  - eapply Writes_emits. eapply Writes_eq; [exact Hfmt|].
    unfold object_text, content_text.
    replace (0 <? length d)%nat with true
      by (destruct d; [contradiction | reflexivity]).
    rewrite <- !app_assoc. cbn [app]. rewrite <- ?app_assoc. reflexivity.
  - eapply Writes_emits. exact Hfmt0.
  - intros ->. reflexivity.
Qed.

(** ** Every run that returns *)

Lemma bind_appends_inv {A B} (m : M gostring A) (k : A -> M gostring B)
    enc b enc' :
  Appends m -> bind m k enc = Some (b, enc') ->
  exists a t, k a (set_w enc (w enc ++ t)) = Some (b, enc').
Proof.
  intros Hm. unfold bind.
  destruct (m enc) as [[a e1]|] eqn:Hrun; [|discriminate].
  destruct (Hm _ _ _ Hrun) as [t ->]. intros Hk. exists a, t. exact Hk.
Qed.

Ltac appends :=
  unfold Appends;
  destruct Appends_relation as (Hrefl & Htrans & Hwrite);
  repeat first
    [ assumption
    | apply Preserves_write | apply Preserves_indentN | apply Preserves_read
    | apply Preserves_when | apply Preserves_ret
    | apply Preserves_bind | intros ? ].

(** Whenever [format] returns on a buffer, it has appended a text that
    ends with the closing quote of a leaf or the closing brace of a
    container. *)
Lemma format_returns_closed (enc : Encoder gostring) n lvl r enc' :
  format n lvl enc = Some (r, enc') ->
  r = None
  /\ exists body last,
       enc' = set_w enc (w enc ++ body ++ [last])
       /\ (last = quote \/ last = "}"%byte).
Proof.
  intros Hrun. split; [exact (format_returns_nil n lvl enc r enc' Hrun)|].
  destruct n as [d [|e cs]].
  - rewrite (Writes_buffer enc _ _ _ (format_leaf enc d lvl)) in Hrun.
    injection Hrun as _ <-.
    exists ([quote] ++ escape d), quote. split; [|auto].
    rewrite sanitiseString_escape. unfold sanitise.
    rewrite <- app_assoc. reflexivity.
  - cbn [format HasChildren Children length Nat.ltb Nat.leb] in Hrun.
    unfold bind at 1 in Hrun.
    match type of Hrun with
    | match ?m enc with _ => _ end = _ =>
        destruct (m enc) as [[u e1]|] eqn:Hbody; [|discriminate]
    end.
    injection Hrun as _ <-.
    apply bind_appends_inv in Hbody; [|appends].
    destruct Hbody as (_ & t1 & Hbody).
    apply bind_appends_inv in Hbody; [|appends].
    destruct Hbody as (ind & t2 & Hbody).
    apply bind_appends_inv in Hbody; [|appends].
    destruct Hbody as (_ & t3 & Hbody).
    apply bind_appends_inv in Hbody; [|appends].
    destruct Hbody as (_ & t4 & Hbody).
    apply bind_appends_inv in Hbody.
    2:{ unfold Appends.
        destruct Appends_relation as (Hrefl & Htrans & Hwrite).
        apply Preserves_entries; try assumption.
        apply Forall_forall. intros entry _. apply Forall_forall.
        intros ch _ lvl'. apply format_Appends. }
    destruct Hbody as (_ & t5 & Hbody).
    cbn [set_w w err contentPrefix attributePrefix indent indentText] in Hbody.
    match type of Hbody with
    | ?tail ?e = _ =>
        assert (Htail : Writes e tail tt
                          ([newline] ++ indent_text e lvl ++ ["}"%byte]))
    end.
    { eapply Writes_eq.
      - eapply Writes_bind; [apply Writes_write|].
        eapply Writes_bind; [apply Writes_indentN | apply Writes_write].
      - cbn [concat app]. rewrite ?app_nil_r. reflexivity. }
    apply Writes_buffer in Htail. rewrite Htail in Hbody.
    injection Hbody as _ He1. rewrite <- He1.
    exists (t1 ++ t2 ++ t3 ++ t4 ++ t5 ++ [newline] ++ indent_text enc lvl),
           "}"%byte.
    split; [|auto].
    unfold set_w, indent_text. cbn. f_equal.
    rewrite <- !app_assoc. cbn [app]. reflexivity.
Qed.

(** ** The claims on Encode *)

(** C8, as the code has it.  A call of [Encode] on the nil root succeeds
    and writes nothing.  Every call on a tree that returns, returns nil
    and has appended the text of the tree, which ends with its last
    structural token (the closing quote of a leaf or the closing brace of
    a container), and exactly one newline after it; and the call returns
    for every well-formed tree. *)
Theorem Encode_trailing_newline (enc : Encoder gostring) :
  err enc = None ->
  Encode None enc = Some (None, enc)
  /\ (forall root r enc',
        Encode (Some root) enc = Some (r, enc') ->
        r = None
        /\ exists body last,
             (last = quote \/ last = "}"%byte)
             /\ format root 0 enc
                = Some (None, set_w enc (w enc ++ body ++ [last]))
             /\ enc' = set_w enc (w enc ++ (body ++ [last]) ++ [newline]))
  /\ (forall root, well_formed root = true ->
        exists enc', Encode (Some root) enc = Some (None, enc')).
Proof.
  intros Herr. split; [apply Encode_nil; exact Herr|]. split.
  - intros root r enc'. unfold Encode, bind at 1, read at 1. rewrite Herr.
    unfold bind at 1.
    destruct (format root 0 enc) as [[r0 e1]|] eqn:Hfmt; [|discriminate].
    destruct (format_returns_closed _ _ _ _ _ Hfmt)
      as (-> & body & last & -> & Hlast).
    cbn. intros [= <- <-]. split; [reflexivity|].
    exists body, last. split; [exact Hlast|]. split; [reflexivity|].
    unfold set_w. cbn. rewrite ?Herr, <- ?app_assoc. reflexivity.
  - intros root Hwf.
    destruct (format_total enc root Hwf 0) as [body Hbody].
    eexists. apply Writes_buffer. apply Encode_writes; eassumption.
Qed.

(** C9, as the code has it.  [EncodeWithCustomPrefixes] stores the two
    prefixes in the encoder and encodes: when it returns, the encoder is
    configured with the prefixes of the call, and the indentation is as
    before. *)
Theorem EncodeWithCustomPrefixes_sets_prefixes {W : Type} `{Writer W}
    (enc : Encoder W) root cp ap r enc' :
  EncodeWithCustomPrefixes root cp ap enc = Some (r, enc') ->
  contentPrefix enc' = cp
  /\ attributePrefix enc' = ap
  /\ indent enc' = indent enc
  /\ indentText enc' = indentText enc
  /\ Encode root (SetAttributePrefix (SetContentPrefix enc cp) ap)
     = Some (r, enc').
Proof.
  unfold EncodeWithCustomPrefixes, bind. intros Hrun.
  pose proof (Encode_frame _ _ _ _ Hrun) as [Hframe _].
  split; [rewrite Hframe; reflexivity|].
  split; [rewrite Hframe; reflexivity|].
  split; [rewrite Hframe; reflexivity|].
  split; [rewrite Hframe; reflexivity | exact Hrun].
Qed.


(** C1: what the code does when the stream rejects every write.  The
    first call returns nil although both of its writes failed, it stores
    no error, and the second call writes again. *)
Theorem Encode_drops_write_error :
  let enc := NewEncoder (W := nat) 0%nat in
  let root := Some (mkNode (str "a") []) in
  snd (snd (Write 0%nat (str "a"))) = Some broken_pipe
  /\ Encode root enc = Some (None, set_w enc 2%nat)
  /\ err (set_w enc 2%nat) = None
  /\ Encode root (set_w enc 2%nat) = Some (None, set_w enc 4%nat).
Proof. repeat split. Qed.

(** ** The claims on the sanitiser *)

(** C4. The sanitiser returns, between two double quotes, the escapes of
    the units of its input, one after the other from left to right: an
    ASCII byte of the escape set by its escape (a backslash before the
    backslash and the double quote; the letters n, r and t for the
    newline, the carriage return and the tab; [u00] and the two lowercase
    hexadecimal digits of the byte otherwise), a malformed byte by
    [ufffd], the code points U+2028 and U+2029 by [u2028] and [u2029],
    everything else unchanged. *)
Theorem sanitiseString_rules (s : gostring) :
  sanitiseString s = [quote] ++ concat (map escape_unit (units s)) ++ [quote]
  /\ concat (map unit_bytes (units s)) = s
  /\ Forall unit_ok (units s).
Proof.
  split; [apply sanitiseString_escape|].
  split; [apply (units_bytes (length s)) | apply (units_ok (length s))]; lia.
Qed.

(** C5. For every string, also one that is not UTF-8, the result of the
    sanitiser is a JSON string literal: it parses, and what it parses to
    are the code points of the input, a malformed byte being read as
    U+FFFD. *)
Theorem sanitiseString_json (s : gostring) :
  Json.parse_string (sanitiseString s) = Some (code_points s).
Proof. rewrite sanitiseString_escape. apply parse_sanitise. Qed.

Lemma in_units_bytes (s : gostring) (u : unit_) (b : byte) :
  In u (units s) -> In b (unit_bytes u) -> In b s.
Proof.
  intros Hu Hb. rewrite <- (units_bytes (length s) s (le_n _)).
  apply in_concat. exists (unit_bytes u). split; [|exact Hb].
  apply in_map. exact Hu.
Qed.

(** C6, as the code has it.  A well-formed UTF-8 string without a byte of
    the escape set and without U+2028 and U+2029 is returned unchanged
    between two double quotes. *)
Theorem sanitiseString_plain (s : gostring) :
  valid s = true ->
  (forall b, In b s -> in_escape_set b = false) ->
  ~ In 0x2028 (code_points s) ->
  ~ In 0x2029 (code_points s) ->
  sanitiseString s = [quote] ++ s ++ [quote].
Proof.
  intros Hvalid Hplain Hls Hps.
  rewrite sanitiseString_escape. unfold sanitise, escape.
  rewrite <- (units_bytes (length s) s (le_n _)) at 2.
  do 3 f_equal. apply map_ext_in. intros u Hu.
  unfold valid in Hvalid. rewrite forallb_forall in Hvalid.
  specialize (Hvalid u Hu).
  destruct u as [b | c bs | b]; cbn [escape_unit unit_bytes].
  - rewrite Hplain; [reflexivity|].
    apply (in_units_bytes s (UAscii b)); [exact Hu | left; reflexivity].
  - assert (Hc : In c (code_points s))
      by (apply (in_map unit_code_point) in Hu; exact Hu).
    destruct (Z.eqb_spec c 0x2028) as [-> | _]; [contradiction|].
    destruct (Z.eqb_spec c 0x2029) as [-> | _]; [contradiction|].
    reflexivity.
  - discriminate Hvalid.
Qed.

(** ** The claims at concrete inputs *)

Example sanitise_html :
  sanitiseString (str "a<b>c&d")
  = quote :: str "a" ++ backslash :: str "u003cb" ++ backslash :: str "u003ec"
    ++ backslash :: str "u0026d" ++ [quote].
Proof. reflexivity. Qed.

Example sanitise_separators :
  sanitiseString [xe2; x80; xa8; xe2; x80; xa9; xef; xbf; xbd]
  = quote :: backslash :: str "u2028" ++ backslash :: str "u2029"
    ++ [xef; xbf; xbd; quote].
Proof. reflexivity. Qed.

Example sanitise_truncated :
  sanitiseString [xe2; x80]
  = quote :: backslash :: str "ufffd" ++ backslash :: str "ufffd" ++ [quote].
Proof. reflexivity. Qed.

Example units_line_separator :
  units [xe2; x80; xa8] = [URune 0x2028 [xe2; x80; xa8]].
Proof. reflexivity. Qed.

Example json_reads_escapes :
  Json.parse_string (quote :: str "a" ++ backslash :: str "n" ++ [quote])
  = Some [0x61; 0x0A].
Proof. reflexivity. Qed.

Example json_rejects_raw_newline :
  Json.parse_string [quote; newline; quote] = None.
Proof. reflexivity. Qed.

Example json_rejects_unterminated :
  Json.parse_string (quote :: str "abc") = None.
Proof. reflexivity. Qed.

Example json_rejects_malformed_byte :
  Json.parse_string [quote; xff; quote] = None.
Proof. reflexivity. Qed.

Example encode_mixed_indent :
  Encode (Some ex_mixed) enc_indent
  = Some (None, set_w enc_indent
                  (str "{" ++ newline :: str "  "
                   ++ quote :: str "content" ++ quote :: str ": "
                   ++ quote :: str "text" ++ quote :: str ", "
                   ++ newline :: str "  "
                   ++ quote :: str "x" ++ quote :: str ": "
                   ++ quote :: str "v" ++ quote :: newline :: str "}"
                   ++ [newline])).
Proof. reflexivity. Qed.

Example encode_hello :
  Encode (Some ex_hello) enc0
  = Some (None, set_w enc0
                  (str "{" ++ quote :: str "hello" ++ quote :: str ": "
                   ++ quote :: str "world" ++ quote :: newline :: str "}"
                   ++ [newline])).
Proof. reflexivity. Qed.

Example osm_key_order :
  sort_Strings (map fst (Children ex_osm))
  = [str "-generator"; str "-version"; str "bounds"; str "foo"].
Proof. reflexivity. Qed.

(** C6 fails for a string that is not UTF-8: the byte 0xFF is neither a
    control character nor one of the escaped characters, and it is
    replaced. *)
Lemma sanitiseString_plain_counterexample :
  (forall b, In b [xff] -> in_escape_set b = false)
  /\ ~ In 0x2028 (code_points [xff])
  /\ ~ In 0x2029 (code_points [xff])
  /\ sanitiseString [xff] <> [quote] ++ [xff] ++ [quote].
Proof.
  split; [intros b [<- | []]; reflexivity|].
  split; [cbn; intros [H | []]; discriminate H|].
  split; [cbn; intros [H | []]; discriminate H|].
  vm_compute. discriminate.
Qed.

Lemma sanitiseString_plain_witness :
  sanitiseString (str "plain text") = [quote] ++ str "plain text" ++ [quote].
Proof.
  apply (sanitiseString_plain (str "plain text")).
  - reflexivity.
  - intros b Hb. cbn in Hb.
    repeat (destruct Hb as [<- | Hb]; [reflexivity|]). contradiction.
  - vm_compute. intros Hin.
    repeat (destruct Hin as [Hin | Hin]; [discriminate Hin|]). contradiction.
  - vm_compute. intros Hin.
    repeat (destruct Hin as [Hin | Hin]; [discriminate Hin|]). contradiction.
Defined.

Lemma nodup_repeated : NoDup (map fst (Children ex_repeated)).
Proof.
  cbn. repeat constructor; cbn; intuition discriminate.
Defined.

Lemma format_label_value_witness :
  exists pre value post,
    emits enc0 (format ex_repeated 0)
      (pre ++ ([quote] ++ str "foo" ++ quote :: str ": ") ++ value ++ post)
    /\ (forall ch, [leaf "bar"; leaf "baz"] = [ch] ->
        emits enc0 (format ch (0 + 1)) value)
    /\ ((1 < length [leaf "bar"; leaf "baz"])%nat ->
        exists elems,
          Forall2 (fun ch t => emits enc0 (format ch (0 + 2)) t)
                  [leaf "bar"; leaf "baz"] elems
          /\ length elems = length [leaf "bar"; leaf "baz"]
          /\ value = str "[" ++ join (str ", ") elems ++ str "]").
Proof.
  apply (format_label_value enc0 (str "")
           (Children ex_repeated) 0 (str "foo") [leaf "bar"; leaf "baz"]).
  - reflexivity.
  - exact nodup_repeated.
  - left. reflexivity.
Defined.

Lemma nodup_osm : NoDup (map fst (Children ex_osm)).
Proof.
  cbn. repeat constructor; cbn; intuition discriminate.
Defined.

Lemma format_key_order_witness :
  Permutation (sort_Strings (map fst (Children ex_osm))) (map fst (Children ex_osm))
  /\ StronglySorted string_lt (sort_Strings (map fst (Children ex_osm))).
Proof.
  destruct (format_key_order (str "") (Children ex_osm) 0) as (Hp & Hs & _).
  - reflexivity.
  - exact nodup_osm.
  - discriminate.
  - split; [exact Hp | exact Hs].
Defined.

(** C7 fails when indenting: after the comma of the content key the code
    writes a space and then the newline. *)
Lemma format_content_separator_counterexample :
  let enc := enc_indent in
  ~ exists rest,
      emits enc (format ex_mixed 0)
        (str "{" ++ nl_text enc ++ indent_text enc 1
         ++ ([quote] ++ contentPrefix enc ++ str "content" ++ quote :: str ": ")
         ++ sanitiseString (str "text")
         ++ (str "," ++ [newline])
         ++ rest).
Proof.
  intros enc [rest [a Hrun]]. specialize (Hrun []).
  vm_compute in Hrun. discriminate Hrun.
Qed.

Lemma format_content_first_witness :
  exists rest,
    emits enc0 (format ex_mixed 0)
      (str "{" ++ nl_text enc0
       ++ indent_text enc0 (0 + 1)
       ++ ([quote] ++ contentPrefix enc0 ++ str "content"
           ++ quote :: str ": ")
       ++ sanitiseString (str "text")
       ++ (str ", " ++ nl_text enc0)
       ++ rest)
    /\ emits enc0 (format (mkNode (@nil byte) (Children ex_mixed)) 0)
         (str "{" ++ nl_text enc0 ++ rest)
    /\ (contentPrefix enc0 = default_contentPrefix ->
        [quote] ++ contentPrefix enc0 ++ str "content"
        ++ quote :: str ": "
        = quote :: str "content" ++ quote :: str ": ").
Proof.
  apply (format_content_first enc0 (str "text") (Children ex_mixed) 0).
  - reflexivity.
  - discriminate.
  - discriminate.
Defined.

(** C8 fails for the nil root: the call succeeds and writes nothing. *)
Lemma Encode_nil_root_counterexample :
  Encode None enc0 = Some (None, enc0)
  /\ ~ exists body, w enc0 = body ++ [newline].
Proof.
  split; [reflexivity|]. intros [body Hbody]. cbn in Hbody.
  destruct body; discriminate Hbody.
Qed.

Lemma Encode_trailing_newline_witness :
  Encode None enc0 = Some (None, enc0)
  /\ exists enc', Encode (Some ex_hello) enc0 = Some (None, enc').
Proof.
  destruct (Encode_trailing_newline enc0 eq_refl) as (Hnil & _ & Htotal).
  split; [exact Hnil|]. apply Htotal. reflexivity.
Defined.

(** C9 fails: the prefixes of the call stay in the encoder. *)
Lemma EncodeWithCustomPrefixes_counterexample :
  exists enc',
    EncodeWithCustomPrefixes (Some ex_mixed) (str "#") (str "@") enc0
    = Some (None, enc')
    /\ contentPrefix enc' <> contentPrefix enc0
    /\ attributePrefix enc' <> attributePrefix enc0.
Proof.
  eexists. split; [vm_compute; reflexivity|].
  split; vm_compute; discriminate.
Qed.

Lemma EncodeWithCustomPrefixes_sets_prefixes_witness :
  exists r enc',
    EncodeWithCustomPrefixes (Some ex_mixed) (str "#") (str "@") enc0
    = Some (r, enc')
    /\ (contentPrefix enc' = str "#"
        /\ attributePrefix enc' = str "@"
        /\ indent enc' = indent enc0
        /\ indentText enc' = indentText enc0
        /\ Encode (Some ex_mixed)
             (SetAttributePrefix (SetContentPrefix enc0 (str "#"))
                                 (str "@"))
           = Some (r, enc')).
Proof.
  eexists _, _. split; [vm_compute; reflexivity|].
  apply (EncodeWithCustomPrefixes_sets_prefixes enc0
           (Some ex_mixed) (str "#") (str "@")).
  vm_compute. reflexivity.
Defined.


(** ** The separator after the content key, when indenting *)

(** C7, at the failing input.  When indenting, the code writes a comma, a
    space and a newline after the content entry, whereas it separates the
    entries of the labels [a] and [b] of the same object by a comma and a
    newline, the separator that the claim states for both. *)
Theorem format_content_separator_indent :
  format ex_mixed_pair 0 enc_indent
  = Some (None,
          set_w enc_indent
            (str "{" ++ [newline]
             ++ str "  " ++ quote :: str "content" ++ quote :: str ": "
             ++ quote :: str "text" ++ [quote]
             ++ (str ", " ++ [newline])
             ++ str "  " ++ quote :: str "a" ++ quote :: str ": "
             ++ quote :: str "1" ++ [quote]
             ++ (str "," ++ [newline])
             ++ str "  " ++ quote :: str "b" ++ quote :: str ": "
             ++ quote :: str "2" ++ [quote]
             ++ [newline] ++ str "}")).
Proof. vm_compute. reflexivity. Qed.

(** * Further properties of the sanitiser *)

Lemma rune_bytes (c : Z) (bs : gostring) :
  unit_ok (URune c bs) ->
  Forall (fun b => is_ascii b = false) bs /\ (2 <= length bs <= 4)%nat.
Proof.
  intros Hu. inversion Hu as [ | | b0 b1 H0 H2 | b0 b1 b2 H0 H2 H3
                             | b0 b1 b2 b3 H0 H2 H3 H4]; subst;
    (split; [|cbn [length]; lia]).
  - unfold wf2, cont in H2. rewrite andb_true_iff, !between_spec in H2.
    repeat constructor; unfold is_ascii; apply Z.ltb_ge; lia.
  - unfold wf3, cont in H3.
    rewrite !andb_true_iff, !orb_true_iff, !andb_true_iff,
      !between_spec, !Z.eqb_eq in H3.
    repeat constructor; unfold is_ascii; apply Z.ltb_ge; lia.
  - unfold wf4, cont in H4.
    rewrite !andb_true_iff, !orb_true_iff, !andb_true_iff,
      !between_spec, !Z.eqb_eq in H4.
    repeat constructor; unfold is_ascii; apply Z.ltb_ge; lia.
Qed.

Lemma escape_ascii_safe (b : byte) :
  forallb safe_byte (if in_escape_set b then escape_ascii b else [b]) = true.
Proof. destruct b; reflexivity. Qed.

Lemma escape_unit_safe (u : unit_) :
  unit_ok u -> forallb safe_byte (escape_unit u) = true.
Proof.
  intros Hu. destruct u as [b | c bs | b]; cbn [escape_unit].
  - apply escape_ascii_safe.
  - destruct (c =? 0x2028); [reflexivity|].
    destruct (c =? 0x2029); [reflexivity|].
    destruct (rune_bytes c bs Hu) as [Hhigh _].
    apply forallb_forall. rewrite Forall_forall in Hhigh.
    intros b Hb. specialize (Hhigh b Hb). unfold is_ascii in Hhigh.
    apply Z.ltb_ge in Hhigh. unfold safe_byte.
    rewrite !andb_true_iff, !negb_true_iff, Z.leb_le, !Z.eqb_neq. lia.
  - reflexivity.
Qed.

(** X1. Whatever the input, no byte of the result is a control character
    below 0x20 or one of the characters [<], [>] and [&]. *)
Theorem sanitiseString_safe_bytes (s : gostring) (b : byte) :
  In b (sanitiseString s) ->
  0x20 <= byte_val b
  /\ byte_val b <> 0x3C /\ byte_val b <> 0x3E /\ byte_val b <> 0x26.
Proof.
  intros Hb.
  assert (Hsafe : safe_byte b = true).
  { rewrite sanitiseString_escape in Hb. unfold sanitise, escape in Hb.
    apply in_app_or in Hb. destruct Hb as [[<- | []] | Hb]; [reflexivity|].
    apply in_app_or in Hb. destruct Hb as [Hb | [<- | []]]; [|reflexivity].
    apply in_concat in Hb. destruct Hb as (l & Hl & Hb).
    apply in_map_iff in Hl. destruct Hl as (u & <- & Hu).
    pose proof (units_ok (length s) s (le_n _)) as Hok.
    rewrite Forall_forall in Hok.
    pose proof (escape_unit_safe u (Hok u Hu)) as Hall.
    rewrite forallb_forall in Hall. auto. }
  unfold safe_byte in Hsafe.
  rewrite !andb_true_iff, !negb_true_iff, Z.leb_le, !Z.eqb_neq in Hsafe. tauto.
Qed.

(** The length of an escape against the length of what it stands for. *)
Lemma escape_ascii_length (b : byte) :
  (1 <= length (if in_escape_set b then escape_ascii b else [b]) <= 6)%nat.
Proof. destruct b; cbn; lia. Qed.

Lemma escape_unit_length (u : unit_) :
  unit_ok u ->
  (length (unit_bytes u) <= length (escape_unit u) <= 6 * length (unit_bytes u))%nat.
Proof.
  intros Hu. destruct u as [b | c bs | b]; cbn [escape_unit unit_bytes].
  - change (length [b]) with 1%nat. rewrite Nat.mul_1_r.
    exact (escape_ascii_length b).
  - destruct (rune_bytes c bs Hu) as [_ Hlen].
    destruct (c =? 0x2028);
      [change (length (backslash :: str "u2028")) with 6%nat; lia|].
    destruct (c =? 0x2029);
      [change (length (backslash :: str "u2029")) with 6%nat; lia|].
    lia.
  - change (length (backslash :: str "ufffd")) with 6%nat.
    change (length [b]) with 1%nat. lia.
Qed.

Lemma escape_units_length (us : list unit_) :
  Forall unit_ok us ->
  (length (concat (map unit_bytes us))
   <= length (concat (map escape_unit us))
   <= 6 * length (concat (map unit_bytes us)))%nat.
Proof.
  induction 1 as [|u us Hu _ IH]; cbn [map concat]; [cbn; lia|].
  rewrite !length_app. pose proof (escape_unit_length u Hu). lia.
Qed.

(** X2. The result is at least two bytes longer than the input, and at
    most six times as long plus two. *)
Theorem sanitiseString_length (s : gostring) :
  (length s + 2 <= length (sanitiseString s) <= 6 * length s + 2)%nat.
Proof.
  rewrite sanitiseString_escape. unfold sanitise, escape.
  rewrite !length_app. cbn [length].
  pose proof (escape_units_length (units s) (units_ok (length s) s (le_n _))) as Hlen.
  rewrite (units_bytes (length s) s (le_n _)) in Hlen. lia.
Qed.

(** ** The units of the result *)

Lemma units_ascii_app (l rest : gostring) :
  forallb is_ascii l = true -> units (l ++ rest) = map UAscii l ++ units rest.
Proof.
  induction l as [|b l IH]; cbn [forallb app map]; [reflexivity|].
  rewrite andb_true_iff. intros [Hb Hl]. cbn [units]. rewrite Hb, IH by assumption.
  reflexivity.
Qed.

Lemma units_rune_app (c : Z) (bs rest : gostring) :
  unit_ok (URune c bs) -> units (bs ++ rest) = URune c bs :: units rest.
Proof.
  intros Hu. inversion Hu as [ | | b0 b1 H0 H2 | b0 b1 b2 H0 H2 H3
                             | b0 b1 b2 b3 H0 H2 H3 H4]; subst;
    cbn [app units].
  - rewrite H0, H2. reflexivity.
  - rewrite H0, H2, H3. reflexivity.
  - rewrite H0, H2, H3, H4. reflexivity.
Qed.

Lemma ascii_units_clean (l : gostring) :
  forallb is_ascii l = true -> forallb clean_unit (map UAscii l) = true.
Proof.
  induction l as [|b l IH]; cbn [forallb map]; [reflexivity|].
  rewrite !andb_true_iff. intros [Hb Hl]. split; [|auto].
  unfold clean_unit, is_ascii in *. cbn [is_bad unit_code_point negb andb].
  apply Z.ltb_lt in Hb.
  rewrite andb_true_iff, !negb_true_iff, !Z.eqb_neq. lia.
Qed.

Lemma escape_ascii_is_ascii (b : byte) :
  is_ascii b = true ->
  forallb is_ascii (if in_escape_set b then escape_ascii b else [b]) = true.
Proof. destruct b; intros Hb; first [discriminate Hb | reflexivity]. Qed.

Lemma units_escape_unit (u : unit_) (rest : gostring) :
  unit_ok u ->
  exists us, units (escape_unit u ++ rest) = us ++ units rest
             /\ forallb clean_unit us = true.
Proof.
  intros Hu. destruct u as [b | c bs | b]; cbn [escape_unit].
  - inversion Hu as [? Hb | | | | ]; subst.
    pose proof (escape_ascii_is_ascii b Hb) as Hall.
    eexists. split; [apply units_ascii_app; exact Hall|].
    apply ascii_units_clean. exact Hall.
  - destruct (Z.eqb_spec c 0x2028) as [-> | Hc1].
    { eexists. split; [apply units_ascii_app; reflexivity | reflexivity]. }
    destruct (Z.eqb_spec c 0x2029) as [-> | Hc2].
    { eexists. split; [apply units_ascii_app; reflexivity | reflexivity]. }
    exists [URune c bs]. split; [apply units_rune_app; exact Hu|].
    cbn [forallb]. unfold clean_unit. cbn [is_bad unit_code_point negb andb].
    rewrite !andb_true_iff, !negb_true_iff, !Z.eqb_neq. auto.
  - eexists. split; [apply units_ascii_app; reflexivity | reflexivity].
Qed.

Lemma units_escape_units (us : list unit_) (rest : gostring) :
  Forall unit_ok us ->
  exists us', units (concat (map escape_unit us) ++ rest) = us' ++ units rest
              /\ forallb clean_unit us' = true.
Proof.
  induction 1 as [|u us Hu _ IH]; cbn [map concat].
  - exists []. split; reflexivity.
  - destruct IH as (us2 & Hus2 & Hclean2).
    rewrite <- app_assoc.
    destruct (units_escape_unit u (concat (map escape_unit us) ++ rest) Hu)
      as (us1 & Hus1 & Hclean1).
    exists (us1 ++ us2). rewrite Hus1, Hus2, app_assoc. split; [reflexivity|].
    rewrite forallb_app, Hclean1, Hclean2. reflexivity.
Qed.

(** X3. Whatever the input, the result is well-formed UTF-8 and holds
    neither U+2028 nor U+2029. *)
Theorem sanitiseString_utf8 (s : gostring) :
  valid (sanitiseString s) = true
  /\ ~ In 0x2028 (code_points (sanitiseString s))
  /\ ~ In 0x2029 (code_points (sanitiseString s)).
Proof.
  assert (Hclean : forallb clean_unit (units (sanitiseString s)) = true).
  { rewrite sanitiseString_escape. unfold sanitise, escape.
    destruct (units_escape_units (units s) [quote]
                (units_ok (length s) s (le_n _))) as (us & Hus & Hclean).
    change ([quote] ++ ?x) with (quote :: x).
    cbn [units]. change (is_ascii quote) with true. cbv iota.
    rewrite Hus. cbn [forallb]. rewrite forallb_app, Hclean. reflexivity. }
  rewrite forallb_forall in Hclean.
  split; [|split].
  - unfold valid. apply forallb_forall. intros u Hu.
    specialize (Hclean u Hu). unfold clean_unit in Hclean.
    rewrite !andb_true_iff in Hclean. tauto.
  - unfold code_points. intros Hin. apply in_map_iff in Hin.
    destruct Hin as (u & Hc & Hu). specialize (Hclean u Hu).
    unfold clean_unit in Hclean.
    rewrite !andb_true_iff, !negb_true_iff, !Z.eqb_neq in Hclean. tauto.
  - unfold code_points. intros Hin. apply in_map_iff in Hin.
    destruct Hin as (u & Hc & Hu). specialize (Hclean u Hu).
    unfold clean_unit in Hclean.
    rewrite !andb_true_iff, !negb_true_iff, !Z.eqb_neq in Hclean. tauto.
Qed.

(** ** What the sanitiser keeps apart *)

Ltac wf_props H :=
  unfold wf2, wf3, wf4, cont in H;
  rewrite ?andb_true_iff, ?orb_true_iff, ?andb_true_iff,
    ?between_spec, ?Z.eqb_eq in H.

(** A code point has one encoding. *)
Lemma unit_code_point_inj (u u' : unit_) :
  unit_ok u -> unit_ok u' -> is_bad u = false -> is_bad u' = false ->
  unit_code_point u = unit_code_point u' -> u = u'.
Proof.
  intros Hu Hu' Hb Hb' Hc.
  destruct Hu as [b Ha | b Ha | b0 b1 H0 H2 | b0 b1 b2 H0 H2 H3
                 | b0 b1 b2 b3 H0 H2 H3 H4]; [| discriminate Hb | | |];
  destruct Hu' as [b' Ha' | b' Ha' | c0 c1 G0 G2 | c0 c1 c2 G0 G2 G3
                  | c0 c1 c2 c3 G0 G2 G3 G4]; try discriminate Hb';
    cbn [unit_code_point] in Hc;
    unfold is_ascii in *;
    repeat match goal with
           | H : (_ <? _) = true |- _ => apply Z.ltb_lt in H
           | H : (_ <? _) = false |- _ => apply Z.ltb_ge in H
           end;
    repeat match goal with
           | H : wf2 _ _ = true |- _ => wf_props H
           | H : wf3 _ _ _ = true |- _ => wf_props H
           | H : wf4 _ _ _ _ = true |- _ => wf_props H
           | H : wf2 _ _ = false |- _ => clear H
           | H : wf3 _ _ _ = false |- _ => clear H
           end;
    unfold cp2, cp3, cp4 in Hc;
    try (exfalso; lia).
  - f_equal. apply byte_val_inj. exact Hc.
  - assert (b0 = c0) by (apply byte_val_inj; lia).
    assert (b1 = c1) by (apply byte_val_inj; lia).
    subst. reflexivity.
  - assert (b0 = c0) by (apply byte_val_inj; lia).
    assert (b1 = c1) by (apply byte_val_inj; lia).
    assert (b2 = c2) by (apply byte_val_inj; lia).
    subst. reflexivity.
  - assert (b0 = c0) by (apply byte_val_inj; lia).
    assert (b1 = c1) by (apply byte_val_inj; lia).
    assert (b2 = c2) by (apply byte_val_inj; lia).
    assert (b3 = c3) by (apply byte_val_inj; lia).
    subst. reflexivity.
Qed.

Lemma code_points_inj (us us' : list unit_) :
  Forall unit_ok us -> Forall unit_ok us' ->
  forallb (fun u => negb (is_bad u)) us = true ->
  forallb (fun u => negb (is_bad u)) us' = true ->
  map unit_code_point us = map unit_code_point us' -> us = us'.
Proof.
  intros Hok. revert us'.
  induction Hok as [|u us Hu _ IH]; intros [|u' us'] Hok' Hv Hv' Hmap;
    try discriminate Hmap; [reflexivity|].
  inversion Hok' as [|? ? Hu' Hok'']; subst.
  cbn [forallb map] in *. rewrite andb_true_iff, negb_true_iff in Hv, Hv'.
  injection Hmap as Hc Hmap.
  f_equal; [apply unit_code_point_inj; tauto | apply IH; tauto].
Qed.

(** X4. On well-formed UTF-8 the sanitiser loses nothing: two well-formed
    strings with the same result are the same string. *)
Theorem sanitiseString_injective (s s' : gostring) :
  valid s = true -> valid s' = true ->
  sanitiseString s = sanitiseString s' -> s = s'.
Proof.
  intros Hv Hv' Heq.
  assert (Hcp : code_points s = code_points s').
  { pose proof (parse_sanitise s) as Hp. pose proof (parse_sanitise s') as Hp'.
    rewrite <- !sanitiseString_escape in Hp, Hp'. rewrite Heq in Hp.
    congruence. }
  rewrite <- (units_bytes (length s) s (le_n _)).
  rewrite <- (units_bytes (length s') s' (le_n _)).
  do 2 f_equal. apply code_points_inj; try assumption.
  - apply (units_ok (length s)). lia.
  - apply (units_ok (length s')). lia.
Qed.

(** ** Concatenation *)

Lemma units_app_valid (n : nat) :
  forall s t, (length s <= n)%nat -> valid s = true ->
              units (s ++ t) = units s ++ units t.
Proof.
  unfold valid.
  induction n as [|n IH]; intros s t Hn Hv.
  - destruct s; [reflexivity | simpl in Hn; lia].
  - destruct s as [|b0 t0]; [reflexivity|].
    simpl in Hn. cbn [app units] in *.
    destruct (is_ascii b0).
    { cbn [forallb is_bad negb andb] in Hv. rewrite IH by (assumption || lia).
      reflexivity. }
    destruct t0 as [|b1 t1]; [discriminate Hv|]. simpl in Hn. cbn [app].
    destruct (wf2 b0 b1).
    { cbn [forallb is_bad negb andb] in Hv. rewrite IH by (assumption || lia).
      reflexivity. }
    destruct t1 as [|b2 t2]; [discriminate Hv|]. simpl in Hn. cbn [app].
    destruct (wf3 b0 b1 b2).
    { cbn [forallb is_bad negb andb] in Hv. rewrite IH by (assumption || lia).
      reflexivity. }
    destruct t2 as [|b3 t3]; [discriminate Hv|]. simpl in Hn. cbn [app].
    destruct (wf4 b0 b1 b2 b3); [|discriminate Hv].
    cbn [forallb is_bad negb andb] in Hv. rewrite IH by (assumption || lia).
    reflexivity.
Qed.

(** X5. After a well-formed string the sanitiser starts afresh: the result
    for a concatenation is the two results joined, without the quotes
    between them. *)
Theorem sanitiseString_app (s t : gostring) :
  valid s = true ->
  exists bs bt,
    sanitiseString s = [quote] ++ bs ++ [quote]
    /\ sanitiseString t = [quote] ++ bt ++ [quote]
    /\ sanitiseString (s ++ t) = [quote] ++ (bs ++ bt) ++ [quote].
Proof.
  intros Hv. exists (escape s), (escape t).
  rewrite !sanitiseString_escape. unfold sanitise.
  split; [reflexivity|]. split; [reflexivity|].
  unfold escape. rewrite (units_app_valid (length s)) by (assumption || lia).
  rewrite map_app, concat_app. reflexivity.
Qed.

(** * Further properties of the encoder *)

(** ** When [format] panics *)

Section Returns.

Context {W : Type} `{Writer W}.

Lemma bind_returns {A B} (m : M W A) (k : A -> M W B) enc :
  returns (bind m k) enc ->
  exists a e1, m enc = Some (a, e1) /\ returns (k a) e1.
Proof.
  unfold returns, bind. intros [r Hr].
  destruct (m enc) as [[a e1]|]; [|discriminate]. eauto.
Qed.

Lemma for_each_with_returns {A S} (f : S -> A -> M W S) l :
  forall com enc,
    returns (for_each_with f com l) enc ->
    forall a, In a l -> exists com' e, returns (f com' a) e.
Proof.
  induction l as [|x l IH]; intros com enc Hret a Hin; [contradiction|].
  cbn [for_each_with] in Hret.
  destruct (bind_returns _ _ _ Hret) as (com1 & e1 & Hx & Hrest).
  destruct Hin as [<- | Hin].
  - exists com, enc. eexists. exact Hx.
  - eapply IH; eassumption.
Qed.

(** If the value of a label is written, the label has children and each
    of them is written. *)
Lemma value_returns (children : list Node) lvl enc :
  returns
    (if (1 <? length children)%nat then
       write [str "["] ;;
       for_each_with (fun com1 ch =>
         write [com1] ;;
         format ch (lvl + 2) ;;
         ret (str ", ")) (str "") children ;;
       write [str "]"]
     else
       match children with
       | ch :: _ => format ch (lvl + 1) ;; ret tt
       | [] => panic
       end) enc ->
  children <> []
  /\ forall ch, In ch children -> exists lvl' e, returns (format ch lvl') e.
Proof.
  intros Hret. destruct children as [|ch [|ch' children]].
  - destruct Hret as [r Hr]. discriminate Hr.
  - split; [discriminate|]. intros c [<- | []].
    cbn [length Nat.ltb Nat.leb] in Hret.
    destruct (bind_returns _ _ _ Hret) as (a & e1 & Hch & _).
    exists (lvl + 1)%nat, enc. eexists. exact Hch.
  - split; [discriminate|]. intros c Hin.
    cbn [length Nat.ltb Nat.leb] in Hret.
    destruct (bind_returns _ _ _ Hret) as (a & e1 & _ & Hret1).
    destruct (bind_returns _ _ _ Hret1) as (a2 & e2 & Hloop & _).
    destruct (for_each_with_returns _ _ _ _ (ex_intro _ _ Hloop) c Hin)
      as (com' & e & Hbody).
    destruct (bind_returns _ _ _ Hbody) as (a3 & e3 & _ & Hbody1).
    destruct (bind_returns _ _ _ Hbody1) as (a4 & e4 & Hch & _).
    exists (lvl + 2)%nat, e3. eexists. exact Hch.
Qed.

Lemma format_returns_well_formed (n : Node) :
  map_ok n ->
  forall lvl enc, returns (format n lvl) enc -> well_formed n = true.
Proof.
  induction n as [d cs IH] using Node_ind. intros Hok lvl enc Hret.
  inversion Hok as [? ? Hnd Hsub]; subst.
  destruct cs as [|e0 cs0]; [reflexivity|].
  set (cs := e0 :: cs0) in *.
  cbn [format] in Hret.
  replace (HasChildren (mkNode d cs)) with true in Hret by reflexivity.
  cbn [Data Children] in Hret.
  destruct (bind_returns _ _ _ Hret) as (a & e1 & Hbody & _).
  pose proof (ex_intro (fun r => _ = Some r) _ Hbody) as Hb. clear Hret Hbody.
  destruct (bind_returns _ _ _ Hb) as (? & ? & _ & Hb1). clear Hb.
  destruct (bind_returns _ _ _ Hb1) as (? & ? & _ & Hb2). clear Hb1.
  destruct (bind_returns _ _ _ Hb2) as (? & ? & _ & Hb3). clear Hb2.
  destruct (bind_returns _ _ _ Hb3) as (? & ? & _ & Hb4). clear Hb3.
  destruct (bind_returns _ _ _ Hb4) as (? & ? & Hloop & _). clear Hb4.
  pose proof (for_each_with_returns _ _ _ _ (ex_intro _ _ Hloop)) as Hkeys.
  clear Hloop.
  cbn [well_formed Children]. apply forallb_forall. intros [label children] Hin.
  cbn [snd].
  assert (Hkey : In label (if (1 <? length (map fst cs))%nat
                           then sort_Strings (map fst cs) else map fst cs)).
  { fold (key_order (map fst cs)). rewrite key_order_sort.
    eapply Permutation_in; [symmetry; apply sort_Strings_perm|].
    apply (in_map fst) in Hin. exact Hin. }
  destruct (Hkeys label Hkey) as (com' & e & Hentry).
  rewrite with_lookup_lookup in Hentry.
  rewrite (lookup_nodup label children cs Hnd Hin) in Hentry.
  destruct (bind_returns _ _ _ Hentry) as (? & ? & _ & He1).
  destruct (bind_returns _ _ _ He1) as (? & ? & _ & He2).
  destruct (bind_returns _ _ _ He2) as (? & ? & _ & He3).
  destruct (bind_returns _ _ _ He3) as (? & ? & Hvalue & _).
  destruct (value_returns children lvl _ (ex_intro _ _ Hvalue)) as [Hne Hch].
  destruct children as [|ch children]; [contradiction|].
  apply forallb_forall. intros c Hc.
  rewrite Forall_forall in IH, Hsub.
  specialize (IH _ Hin). specialize (Hsub _ Hin). cbn [snd] in IH, Hsub.
  rewrite Forall_forall in IH, Hsub.
  destruct (Hch c Hc) as (lvl' & e' & Hret').
  eapply IH; eauto.
Qed.

End Returns.

(** X6. From an encoder that stores no error, [Encode] cannot return from a
    tree in which some label has an empty sequence of children: [format]
    comes to index the empty slice, which panics.  The keys of each map
    are pairwise distinct, as in a Go map; no answer of the writer and no
    configuration avoids the panic. *)
Theorem Encode_panics_on_empty_label {W : Type} `{Writer W}
    (enc : Encoder W) (n : Node) :
  err enc = None ->
  map_ok n ->
  well_formed n = false ->
  Encode (Some n) enc = None.
Proof.
  intros Herr Hok Hwf.
  destruct (Encode (Some n) enc) as [[r e']|] eqn:Hrun; [|reflexivity].
  exfalso. unfold Encode, bind at 1, read at 1 in Hrun. rewrite Herr in Hrun.
  unfold bind at 1 in Hrun.
  destruct (format n 0 enc) as [r0|] eqn:Hfmt; [|discriminate Hrun].
  rewrite (format_returns_well_formed n Hok 0 enc (ex_intro _ _ Hfmt)) in Hwf.
  discriminate Hwf.
Qed.

(** ** Uses of an encoder *)

Section CallsTheory.

Context {W : Type} `{Writer W}.

Lemma do_call_inv (c : call) (enc : Encoder W) rs enc' :
  encoder_inv enc ->
  do_call c enc = Some (rs, enc') ->
  encoder_inv enc'
  /\ Forall (fun r => r = None) rs
  /\ indent enc' = indent enc || is_SetIndent c.
Proof.
  intros [Herr Htext] Hrun. destruct c as [p | p | s | root | root cp ap];
    cbn [do_call is_SetIndent] in Hrun |- *.
  - injection Hrun as <- <-. cbn. rewrite orb_false_r.
    repeat split; auto.
  - injection Hrun as <- <-. cbn. rewrite orb_false_r.
    repeat split; auto.
  - injection Hrun as <- <-. cbn. rewrite orb_true_r.
    repeat split; auto. discriminate.
  - unfold bind at 1 in Hrun.
    destruct (Encode root enc) as [[r e1]|] eqn:HE; [|discriminate].
    injection Hrun as <- <-.
    destruct (Encode_frame _ _ _ _ HE) as [-> Hr].
    cbn. rewrite orb_false_r. repeat split; auto.
  - unfold bind at 1, EncodeWithCustomPrefixes, bind at 1, bind at 1 in Hrun.
    match type of Hrun with
    | context [Encode root ?e] =>
        destruct (Encode root e) as [[r e1]|] eqn:HE; [|discriminate]
    end.
    injection Hrun as <- <-.
    destruct (Encode_frame _ _ _ _ HE) as [-> Hr].
    cbn. rewrite orb_false_r. repeat split; auto.
Qed.

Lemma do_calls_inv (cs : list call) :
  forall (enc : Encoder W) rs enc',
    encoder_inv enc ->
    do_calls cs enc = Some (rs, enc') ->
    encoder_inv enc'
    /\ Forall (fun r => r = None) rs
    /\ indent enc' = indent enc || existsb is_SetIndent cs.
Proof.
  induction cs as [|c cs IH]; intros enc rs enc' Hinv Hrun.
  - injection Hrun as <- <-. rewrite orb_false_r. auto.
  - cbn [do_calls] in Hrun. unfold bind at 1 in Hrun.
    destruct (do_call c enc) as [[r e1]|] eqn:Hc; [|discriminate].
    unfold bind at 1 in Hrun.
    destruct (do_calls cs e1) as [[rs1 e2]|] eqn:Hcs; [|discriminate].
    injection Hrun as <- <-.
    destruct (do_call_inv _ _ _ _ Hinv Hc) as (Hinv1 & Hr & Hi1).
    destruct (IH _ _ _ Hinv1 Hcs) as (Hinv2 & Hrs & Hi2).
    split; [exact Hinv2|]. split; [apply Forall_app; auto|].
    cbn [existsb]. rewrite Hi2, Hi1, orb_assoc. reflexivity.
Qed.

End CallsTheory.

(** X7. Whatever calls of its methods a new encoder receives, over whatever
    writer, as long as none of them panics: every encoding call returns
    nil, no error is ever stored, the indenting mode is on exactly when
    [SetIndent] was among the calls, and the indentation text is empty
    while the mode is off. *)
Theorem NewEncoder_calls {W : Type} `{Writer W} (w0 : W) (cs : list call)
    (rs : list (option error)) (enc' : Encoder W) :
  do_calls cs (NewEncoder w0) = Some (rs, enc') ->
  Forall (fun r => r = None) rs
  /\ err enc' = None
  /\ indent enc' = existsb is_SetIndent cs
  /\ (indent enc' = false -> indentText enc' = []).
Proof.
  intros Hrun.
  assert (Hinv : encoder_inv (NewEncoder w0)) by (split; reflexivity).
  destruct (do_calls_inv cs _ _ _ Hinv Hrun) as ((Herr & Htext) & Hrs & Hi).
  auto.
Qed.

Lemma NewEncoder_calls_witness :
  exists rs enc',
    do_calls [CallEncode (Some ex_hello); CallSetIndent (str "  ");
              CallEncodeWithCustomPrefixes (Some ex_mixed) (str "#") (str "@");
              CallEncode None]
      (NewEncoder (W := nat) 0%nat) = Some (rs, enc')
    /\ Forall (fun r => r = None) rs
    /\ err enc' = None
    /\ indent enc' = true
    /\ (indent enc' = false -> indentText enc' = []).
Proof.
  eexists _, _. split; [vm_compute; reflexivity|].
  eapply (NewEncoder_calls (W := nat) 0%nat
            [CallEncode (Some ex_hello); CallSetIndent (str "  ");
             CallEncodeWithCustomPrefixes (Some ex_mixed) (str "#") (str "@");
             CallEncode None]).
  vm_compute. reflexivity.
Defined.

(** ** The attribute prefix *)

Section CommutesTheory.

Context {W : Type} `{Writer W}.

(** An update of the encoder that touches neither the writer nor the
    fields that [format] reads. *)
Variable g : Encoder W -> Encoder W.
Hypothesis g_set_w : forall enc w', g (set_w enc w') = set_w (g enc) w'.
Hypothesis g_w : forall enc, w (g enc) = w enc.
Hypothesis g_indent : forall enc, indent (g enc) = indent enc.
Hypothesis g_indentText : forall enc, indentText (g enc) = indentText enc.
Hypothesis g_contentPrefix :
  forall enc, contentPrefix (g enc) = contentPrefix enc.

Lemma Commutes_ret {A} (a : A) : Commutes g (ret a).
Proof. intros enc. reflexivity. Qed.

Lemma Commutes_panic {A} : Commutes g (@panic W A).
Proof. intros enc. reflexivity. Qed.

Lemma Commutes_read {A} (f : Encoder W -> A) :
  (forall enc, f (g enc) = f enc) -> Commutes g (read f).
Proof. intros Hf enc. unfold read. rewrite Hf. reflexivity. Qed.

Lemma Commutes_write1 s : Commutes g (write1 s).
Proof. intros enc. unfold write1. rewrite g_w, g_set_w. reflexivity. Qed.

Lemma Commutes_bind {A B} (m : M W A) (k : A -> M W B) :
  Commutes g m -> (forall a, Commutes g (k a)) -> Commutes g (bind m k).
Proof.
  intros Hm Hk enc. unfold bind. rewrite Hm.
  destruct (m enc) as [[a e1]|]; [apply Hk | reflexivity].
Qed.

Lemma Commutes_for_each {A} (f : A -> M W unit) l :
  (forall a, Commutes g (f a)) -> Commutes g (for_each f l).
Proof.
  intros Hf. induction l as [|a l IH]; cbn [for_each].
  - apply Commutes_ret.
  - apply Commutes_bind; auto.
Qed.

Lemma Commutes_write ss : Commutes g (write ss).
Proof. apply Commutes_for_each. apply Commutes_write1. Qed.

Lemma Commutes_times n (m : M W unit) :
  Commutes g m -> Commutes g (times n m).
Proof.
  intros Hm. induction n as [|n IH]; cbn [times].
  - apply Commutes_ret.
  - apply Commutes_bind; auto.
Qed.

Lemma Commutes_when c (m : M W unit) : Commutes g m -> Commutes g (when c m).
Proof. intros Hm. destruct c; [assumption | apply Commutes_ret]. Qed.

Lemma Commutes_indentN n : Commutes g (indentN n).
Proof.
  unfold indentN. apply Commutes_bind; [apply Commutes_read, g_indent|].
  intros ind. apply Commutes_when, Commutes_times, Commutes_bind;
    [apply Commutes_read, g_indentText|].
  intros it. apply Commutes_write.
Qed.

Lemma Commutes_for_each_with {A S} (f : S -> A -> M W S) l :
  Forall (fun a => forall com, Commutes g (f com a)) l ->
  forall com, Commutes g (for_each_with f com l).
Proof.
  induction 1 as [|a l Ha _ IH]; intros com; cbn [for_each_with].
  - apply Commutes_ret.
  - apply Commutes_bind; auto.
Qed.

Lemma Commutes_with_lookup {V A} label (k : list V -> M W A) m :
  Commutes g (k []) -> Forall (fun e => Commutes g (k (snd e))) m ->
  Commutes g (with_lookup label k m).
Proof.
  intros Hnil. induction 1 as [|[l children] m He _ IH]; cbn [with_lookup].
  - assumption.
  - destruct (list_eq_dec Byte.byte_eq_dec l label); assumption.
Qed.

Ltac commutes :=
  repeat first
    [ apply Commutes_write | apply Commutes_indentN
    | apply Commutes_read; first [apply g_indent | apply g_contentPrefix]
    | apply Commutes_when | apply Commutes_ret | apply Commutes_panic
    | apply Commutes_bind; [|intros ?] ].

Lemma format_Commutes (n : Node) : forall lvl, Commutes g (format n lvl).
Proof.
  induction n as [d cs IH] using Node_ind. intros lvl.
  cbn [format]. apply Commutes_bind; [|intros; apply Commutes_ret].
  destruct (HasChildren (mkNode d cs)); [|apply Commutes_write].
  commutes. apply Commutes_for_each_with.
  apply Forall_forall. intros label _ com.
  apply Commutes_with_lookup; [commutes|].
  eapply Forall_impl; [|exact IH]. cbv beta. intros [l children] Hch.
  cbn [snd] in *. commutes.
  destruct (1 <? length children)%nat.
  - commutes. apply Commutes_for_each_with.
    eapply Forall_impl; [|exact Hch]. cbv beta. intros ch Hc com1.
    commutes. apply Hc.
  - destruct Hch as [|ch children Hc _]; [apply Commutes_panic|].
    apply Commutes_bind; [apply Hc | intros; apply Commutes_ret].
Qed.

Hypothesis g_err : forall enc, err (g enc) = err enc.
Hypothesis g_set_err : forall enc e, g (set_err enc e) = set_err (g enc) e.

Lemma Encode_Commutes (root : option Node) : Commutes g (Encode root).
Proof.
  unfold Encode. apply Commutes_bind; [apply Commutes_read, g_err|].
  intros [e|]; [apply Commutes_ret|].
  destruct root as [n|]; [|apply Commutes_ret].
  apply Commutes_bind; [apply format_Commutes|]. intros r.
  apply Commutes_bind.
  { intros enc. rewrite g_set_err. reflexivity. }
  intros _. apply Commutes_bind; [apply Commutes_write|].
  intros _. apply Commutes_read, g_err.
Qed.

End CommutesTheory.

(** X8. [Encode] never reads the attribute prefix: with another prefix it
    panics on the same trees, returns the same result and leaves the same
    writer and the same other fields, for every writer and every tree. *)
Theorem Encode_ignores_attributePrefix {W : Type} `{Writer W}
    (enc : Encoder W) (root : option Node) (prefix : gostring) :
  Encode root (SetAttributePrefix enc prefix)
  = match Encode root enc with
    | Some (r, enc') => Some (r, SetAttributePrefix enc' prefix)
    | None => None
    end.
Proof.
  apply (Encode_Commutes (fun enc => SetAttributePrefix enc prefix));
    reflexivity.
Qed.

(** ** The nesting level in compact mode *)

Section AgreeTheory.

Context {W : Type} `{Writer W}.

Lemma Agree_ret {A} (a : A) : Agree (W := W) (ret a) (ret a).
Proof. intros enc Hi. split; [reflexivity|]. intros ? ? [= _ <-]. exact Hi. Qed.

Lemma Agree_panic {A} : Agree (@panic W A) panic.
Proof. intros enc Hi. split; [reflexivity | discriminate]. Qed.

Lemma Agree_read {A} (f : Encoder W -> A) : Agree (read f) (read f).
Proof. intros enc Hi. split; [reflexivity|]. intros ? ? [= _ <-]. exact Hi. Qed.

Lemma Agree_write1 s : Agree (write1 s) (write1 s).
Proof. intros enc Hi. split; [reflexivity|]. intros ? ? [= _ <-]. exact Hi. Qed.

Lemma Agree_bind {A B} (m m' : M W A) (k k' : A -> M W B) :
  Agree m m' -> (forall a, Agree (k a) (k' a)) -> Agree (bind m k) (bind m' k').
Proof.
  intros Hm Hk enc Hi. destruct (Hm enc Hi) as [Heq Hind].
  unfold bind. rewrite <- Heq.
  destruct (m enc) as [[a e1]|]; [|split; [reflexivity | discriminate]].
  apply Hk. eapply Hind. reflexivity.
Qed.

Lemma Agree_for_each {A} (f : A -> M W unit) l :
  (forall a, Agree (f a) (f a)) -> Agree (for_each f l) (for_each f l).
Proof.
  intros Hf. induction l as [|a l IH]; cbn [for_each].
  - apply Agree_ret.
  - apply Agree_bind; auto.
Qed.

Lemma Agree_write ss : Agree (write ss) (write ss).
Proof. apply Agree_for_each, Agree_write1. Qed.

Lemma Agree_when c (m m' : M W unit) :
  Agree m m' -> Agree (when c m) (when c m').
Proof. intros Hm. destruct c; [assumption | apply Agree_ret]. Qed.

(** Without indentation [indentN] does nothing, whatever the level. *)
Lemma Agree_indentN n n' : Agree (indentN n) (indentN n').
Proof.
  intros enc Hi. unfold indentN, bind, read. rewrite Hi. cbn [when].
  split; [reflexivity|]. intros ? ? [= _ <-]. exact Hi.
Qed.

Lemma Agree_for_each_with {A S} (f f' : S -> A -> M W S) l :
  Forall (fun a => forall com, Agree (f com a) (f' com a)) l ->
  forall com, Agree (for_each_with f com l) (for_each_with f' com l).
Proof.
  induction 1 as [|a l Ha _ IH]; intros com; cbn [for_each_with].
  - apply Agree_ret.
  - apply Agree_bind; auto.
Qed.

Lemma Agree_with_lookup {V A} label (k k' : list V -> M W A) m :
  Agree (k []) (k' []) ->
  Forall (fun e => Agree (k (snd e)) (k' (snd e))) m ->
  Agree (with_lookup label k m) (with_lookup label k' m).
Proof.
  intros Hnil. induction 1 as [|[l children] m He _ IH]; cbn [with_lookup].
  - assumption.
  - destruct (list_eq_dec Byte.byte_eq_dec l label); assumption.
Qed.

Ltac agree :=
  repeat first
    [ apply Agree_write | apply Agree_indentN | apply Agree_read
    | apply Agree_when | apply Agree_ret | apply Agree_panic
    | apply Agree_bind; [|intros ?] ].

Lemma format_Agree (n : Node) :
  forall lvl lvl', Agree (format n lvl) (format n lvl').
Proof.
  induction n as [d cs IH] using Node_ind. intros lvl lvl'.
  cbn [format]. apply Agree_bind; [|intros; apply Agree_ret].
  destruct (HasChildren (mkNode d cs)); [|apply Agree_write].
  agree. apply Agree_for_each_with.
  apply Forall_forall. intros label _ com.
  apply Agree_with_lookup; [agree|].
  eapply Forall_impl; [|exact IH]. cbv beta. intros [l children] Hch.
  cbn [snd] in *. agree.
  destruct (1 <? length children)%nat.
  - agree. apply Agree_for_each_with.
    eapply Forall_impl; [|exact Hch]. cbv beta. intros ch Hc com1.
    agree. apply Hc.
  - destruct Hch as [|ch children Hc _]; [apply Agree_panic|].
    apply Agree_bind; [apply Hc | intros; apply Agree_ret].
Qed.

End AgreeTheory.

(** X9. Without indentation the nesting level plays no part: from an
    encoder in compact mode, [format] at any two levels gives the same
    run, for every tree and every writer. *)
Theorem format_compact_level {W : Type} `{Writer W} (enc : Encoder W)
    (n : Node) (lvl lvl' : nat) :
  indent enc = false ->
  format n lvl enc = format n lvl' enc.
Proof. intros Hi. apply (format_Agree n lvl lvl' enc Hi). Qed.

Lemma format_compact_level_witness :
  format ex_osm 0 enc0 = format ex_osm 7 enc0.
Proof. apply (format_compact_level enc0 ex_osm 0 7). reflexivity. Defined.

(** ** The output is a JSON text *)

Lemma json_ws_app a b : json_ws a -> json_ws b -> json_ws (a ++ b).
Proof. unfold json_ws. intros Ha Hb. rewrite forallb_app, Ha, Hb. reflexivity. Qed.

Lemma json_ws_nil : json_ws [].
Proof. reflexivity. Qed.

Lemma json_ws_space : json_ws (str " ").
Proof. reflexivity. Qed.

Lemma json_ws_newline : json_ws [newline].
Proof. reflexivity. Qed.

Lemma json_ws_concat_repeat s n : json_ws s -> json_ws (concat (repeat s n)).
Proof.
  intros Hs. induction n as [|n IH]; cbn [repeat concat].
  - apply json_ws_nil.
  - apply json_ws_app; assumption.
Qed.

Create HintDb json.
#[local] Hint Resolve json_ws_app json_ws_nil json_ws_space json_ws_newline
  : json.

Ltac list_norm :=
  rewrite ?app_nil_r;
  repeat (progress (cbn [app]; rewrite <- ?app_assoc)).

Lemma json_members_eq t t' : json_members t -> t = t' -> json_members t'.
Proof. intros Ht <-. exact Ht. Qed.

Lemma json_elements_eq t t' : json_elements t -> t = t' -> json_elements t'.
Proof. intros Ht <-. exact Ht. Qed.

Lemma json_value_eq t t' : json_value t -> t = t' -> json_value t'.
Proof. intros Ht <-. exact Ht. Qed.

Lemma is_json_key_string label :
  is_json_key label = true -> json_string (quote :: label ++ [quote]).
Proof.
  unfold is_json_key, json_string.
  destruct (Json.parse_string (quote :: label ++ [quote])) as [cs|];
    [eauto | discriminate].
Qed.

Lemma sanitised_json_string s : json_string (sanitiseString s).
Proof.
  rewrite sanitiseString_escape. eexists. apply parse_sanitise.
Qed.

(** The elements of an array, after the whitespace [pre]. *)
Lemma json_elements_join elems :
  Forall json_value elems ->
  forall x pre, json_ws pre -> json_value x ->
    json_elements (pre ++ x ++ join_from (str ", ") (str ", ") elems).
Proof.
  induction 1 as [|y ys Hy _ IH]; intros x pre Hpre Hx; cbn [join_from].
  - apply json_element_last, json_element_value; auto with json.
  - eapply json_elements_eq.
    + apply (json_element_more (pre ++ x ++ [])
               (str " " ++ y ++ join_from (str ", ") (str ", ") ys)).
      * apply json_element_value; auto with json.
      * apply IH; auto with json.
    + rewrite app_nil_r, <- !app_assoc. reflexivity.
Qed.

Lemma array_text_json elems :
  (1 < length elems)%nat -> Forall json_value elems ->
  json_value (array_text elems).
Proof.
  intros Hlen Helems. destruct elems as [|x elems]; [cbn in Hlen; lia|].
  inversion Helems as [|? ? Hx Hrest]; subst.
  unfold array_text, join. cbn [join_from].
  apply json_value_array.
  apply (json_elements_join elems Hrest x []); auto with json.
Qed.

Lemma Forall2_Forall_r {A B} (P : A -> B -> Prop) (Q : B -> Prop) l l' :
  Forall2 (fun a b => P a b /\ Q b) l l' -> Forall Q l'.
Proof. induction 1 as [|? ? ? ? [_ Hq] _ IH]; constructor; assumption. Qed.

Lemma Forall2_combine_Forall {A B} (P : A -> B -> Prop) (Q : A * B -> Prop)
    l l' :
  Forall2 (fun a b => P a b /\ Q (a, b)) l l' -> Forall Q (combine l l').
Proof.
  induction 1 as [|? ? ? ? [_ Hq] _ IH]; cbn [combine]; constructor; assumption.
Qed.

Section JsonText.

Context {W : Type} `{Writer W}.
Variable enc : Encoder W.
Hypothesis indentText_ws : json_ws (indentText enc).

Lemma json_ws_nl_text : json_ws (nl_text enc).
Proof. unfold nl_text. destruct (indent enc); reflexivity. Qed.

Lemma json_ws_indent_text n : json_ws (indent_text enc n).
Proof.
  unfold indent_text. destruct (indent enc); [|reflexivity].
  apply json_ws_concat_repeat, indentText_ws.
Qed.

(** The separator is a comma and whitespace. *)
Lemma sep_text_comma :
  exists sw, json_ws sw /\ sep_text enc = str "," ++ sw.
Proof.
  unfold sep_text. destruct (indent enc).
  - exists [newline]. split; reflexivity.
  - exists (str " "). split; reflexivity.
Qed.

(** The members of an object from its entries, between the whitespace
    [pre] and [post]. *)
Lemma json_members_entries lvl entries :
  Forall entry_ok entries ->
  forall e pre post, json_ws pre -> json_ws post -> entry_ok e ->
    json_members
      (pre ++ entry_text enc lvl e
       ++ join_from (sep_text enc) (sep_text enc) (map (entry_text enc lvl) entries)
       ++ post).
Proof.
  destruct sep_text_comma as (sw & Hsw & ->).
  induction 1 as [|e2 es He2 _ IH]; intros [k v] pre post Hpre Hpost [Hk Hv];
    cbn [map join_from]; unfold entry_text at 1; cbn [fst snd] in *.
  - eapply json_members_eq.
    + apply (json_member_last (pre ++ indent_text enc (lvl + 1))
               (quote :: k ++ [quote]) [] (str " " ++ v ++ post)).
      * apply json_ws_app; [assumption | apply json_ws_indent_text].
      * apply is_json_key_string, Hk.
      * apply json_ws_nil.
      * apply json_element_value; auto with json.
    + cbn [app]. rewrite <- !app_assoc. cbn [app]. rewrite <- !app_assoc.
      reflexivity.
  - eapply json_members_eq.
    + apply (json_member_more (pre ++ indent_text enc (lvl + 1))
               (quote :: k ++ [quote]) [] (str " " ++ v ++ [])
               (sw ++ entry_text enc lvl e2
                ++ join_from (str "," ++ sw) (str "," ++ sw)
                     (map (entry_text enc lvl) es)
                ++ post)).
      * apply json_ws_app; [assumption | apply json_ws_indent_text].
      * apply is_json_key_string, Hk.
      * apply json_ws_nil.
      * apply json_element_value; auto with json.
      * apply IH; assumption.
    + cbn [app]. rewrite app_nil_r, <- !app_assoc. cbn [app].
      rewrite <- !app_assoc. reflexivity.
Qed.

Hypothesis content_key : is_json_key (contentPrefix enc ++ str "content") = true.

Lemma object_text_json lvl d entries :
  entries <> [] -> Forall entry_ok entries ->
  json_value (object_text enc lvl d entries).
Proof.
  intros Hne Hok. destruct entries as [|e entries]; [contradiction|].
  inversion Hok as [|? ? He Hrest]; subst.
  unfold object_text, entries_text, join, content_text. cbn [map join_from].
  destruct (0 <? length d)%nat.
  - eapply json_value_eq.
    + apply json_value_object.
      apply (json_member_more (nl_text enc ++ indent_text enc (lvl + 1))
               (quote :: (contentPrefix enc ++ str "content") ++ [quote]) []
               (str " " ++ sanitiseString d ++ [])
               ((str " " ++ nl_text enc) ++ entry_text enc lvl e
                ++ join_from (sep_text enc) (sep_text enc)
                     (map (entry_text enc lvl) entries)
                ++ ([newline] ++ indent_text enc lvl))).
      * apply json_ws_app; [apply json_ws_nl_text | apply json_ws_indent_text].
      * apply is_json_key_string, content_key.
      * apply json_ws_nil.
      * apply json_element_value; auto with json.
        apply json_value_string, sanitised_json_string.
      * apply json_members_entries; auto.
        -- apply json_ws_app; [apply json_ws_space | apply json_ws_nl_text].
        -- apply json_ws_app; [apply json_ws_newline | apply json_ws_indent_text].
    + list_norm. reflexivity.
  - eapply json_value_eq.
    + apply json_value_object.
      apply (json_members_entries lvl entries Hrest e (nl_text enc)
               ([newline] ++ indent_text enc lvl)); auto.
      * apply json_ws_nl_text.
      * apply json_ws_app; [apply json_ws_newline | apply json_ws_indent_text].
    + list_norm. reflexivity.
Qed.

Lemma value_text_json lvl children :
  children <> [] -> Forall (JsonText enc) children ->
  exists v, ValueText enc lvl children v /\ json_value v.
Proof.
  intros Hne Hch. destruct children as [|ch [|ch' children]]; [contradiction| |].
  - inversion Hch as [|? ? Hc _]; subst.
    destruct (Hc (lvl + 1)%nat) as (v & Hv & Hj). exists v.
    split; [constructor; exact Hv | exact Hj].
  - assert (Hex : Forall (fun ch => exists t,
                     Writes enc (format ch (lvl + 2)) None t /\ json_value t)
                         (ch :: ch' :: children))
      by (eapply Forall_impl; [|exact Hch]; cbv beta; auto).
    apply Forall_exists_Forall2 in Hex. destruct Hex as [elems Helems].
    exists (array_text elems).
    assert (Hlen : length elems = length (ch :: ch' :: children))
      by (symmetry; eapply Forall2_length; exact Helems).
    split.
    + constructor; [cbn [length]; lia|].
      eapply Forall2_impl; [|exact Helems]. cbv beta. tauto.
    + apply array_text_json; [rewrite Hlen; cbn [length]; lia|].
      eapply Forall2_Forall_r, Helems.
Qed.

Lemma format_json (n : Node) :
  well_formed n = true -> json_keys n = true -> JsonText enc n.
Proof.
  induction n as [d cs IH] using Node_ind. intros Hwf Hkeys lvl.
  destruct cs as [|e0 cs0].
  { exists (sanitiseString d). split; [apply format_leaf|].
    apply json_value_string, sanitised_json_string. }
  set (cs := e0 :: cs0) in *.
  assert (Hlabels : Forall (fun label => exists v,
            LabelText enc lvl cs label v /\ entry_ok (label, v))
            (key_order (map fst cs))).
  { apply Forall_forall. intros label Hin. rewrite key_order_sort in Hin.
    apply (Permutation_in _ (sort_Strings_perm _)) in Hin.
    destruct (lookup_in label cs Hin) as (children & Hlook & Hentry).
    destruct (well_formed_entry d cs label children Hwf Hentry) as [Hne Hwfc].
    cbn [json_keys Children] in Hkeys. rewrite forallb_forall in Hkeys.
    specialize (Hkeys _ Hentry). cbn [fst snd] in Hkeys.
    apply andb_prop in Hkeys. destruct Hkeys as [Hkey Hsub].
    rewrite forallb_forall in Hsub.
    rewrite Forall_forall in IH. specialize (IH _ Hentry). cbn [snd] in IH.
    assert (Hch : Forall (JsonText enc) children).
    { rewrite Forall_forall in IH, Hwfc |- *. intros ch Hc.
      apply IH; auto. }
    destruct (value_text_json lvl children Hne Hch) as (v & Hv & Hj).
    exists v. split; [exists children; auto | split; assumption]. }
  apply Forall_exists_Forall2 in Hlabels. destruct Hlabels as [values Hvalues].
  exists (object_text enc lvl d (combine (key_order (map fst cs)) values)).
  split.
  - apply format_container; [discriminate|].
    eapply Forall2_impl; [|exact Hvalues]. cbv beta. tauto.
  - apply object_text_json.
    + destruct (key_order (map fst cs)) as [|k ks] eqn:Hk.
      * exfalso. rewrite key_order_sort in Hk.
        pose proof (Permutation_length (sort_Strings_perm (map fst cs))) as Hl.
        rewrite Hk in Hl. discriminate Hl.
      * inversion Hvalues; subst. cbn [combine]. discriminate.
    + eapply Forall2_combine_Forall, Hvalues.
Qed.

End JsonText.

(** X10. On a buffer, [Encode] of a well-formed tree appends a JSON value
    and one newline, provided that every label of the tree and the content
    key are JSON strings as they stand (labels are written without
    escaping) and that the indentation text is whitespace. *)
Theorem Encode_json (enc : Encoder gostring) (n : Node) :
  err enc = None ->
  well_formed n = true ->
  json_keys n = true ->
  is_json_key (contentPrefix enc ++ str "content") = true ->
  json_ws (indentText enc) ->
  exists t,
    json_value t
    /\ Encode (Some n) enc = Some (None, set_w enc (w enc ++ t ++ [newline])).
Proof.
  intros Herr Hwf Hkeys Hcontent Hws.
  destruct (format_json enc Hws Hcontent n Hwf Hkeys 0%nat) as (t & Ht & Hj).
  exists t. split; [exact Hj|].
  apply Writes_buffer, Encode_writes; assumption.
Qed.

(** * Instances of the further properties *)

Lemma sanitiseString_safe_bytes_witness :
  0x20 <= byte_val backslash
  /\ byte_val backslash <> 0x3C
  /\ byte_val backslash <> 0x3E
  /\ byte_val backslash <> 0x26.
Proof.
  apply (sanitiseString_safe_bytes (str "<b>") backslash).
  vm_compute. auto.
Defined.

Lemma sanitiseString_injective_witness : str "a<b" = str "a<b".
Proof.
  apply (sanitiseString_injective (str "a<b") (str "a<b"));
    vm_compute; reflexivity.
Defined.

Lemma sanitiseString_app_witness :
  exists bs bt,
    sanitiseString (str "a<") = [quote] ++ bs ++ [quote]
    /\ sanitiseString [xff; "b"%byte] = [quote] ++ bt ++ [quote]
    /\ sanitiseString (str "a<" ++ [xff; "b"%byte])
       = [quote] ++ (bs ++ bt) ++ [quote].
Proof.
  apply (sanitiseString_app (str "a<") [xff; "b"%byte]).
  vm_compute. reflexivity.
Defined.

(** A label without children, below a label that has one: a tree on
    which [format] comes to index an empty slice. *)
Lemma map_ok_ex_childless : map_ok ex_childless.
Proof.
  assert (Hnil : forall d, map_ok (mkNode d [])).
  { intros d. constructor; constructor. }
  constructor.
  - cbn [map fst]. constructor; [intros [Heq | []]; discriminate Heq|].
    constructor; [intros [] | constructor].
  - constructor; [cbn [snd]; constructor; [apply Hnil | constructor]|].
    constructor; [|constructor].
    cbn [snd]. constructor; [|constructor].
    constructor.
    + cbn [map fst]. constructor; [intros [] | constructor].
    + constructor; [cbn [snd]; constructor | constructor].
Qed.

Lemma Encode_panics_on_empty_label_witness :
  Encode (Some ex_childless) (NewEncoder (W := nat) 0%nat) = None.
Proof.
  apply (Encode_panics_on_empty_label (NewEncoder (W := nat) 0%nat)
           ex_childless).
  - reflexivity.
  - exact map_ok_ex_childless.
  - reflexivity.
Defined.

Lemma Encode_json_witness :
  exists t,
    json_value t
    /\ Encode (Some ex_osm) enc_indent
       = Some (None, set_w enc_indent (w enc_indent ++ t ++ [newline])).
Proof.
  apply (Encode_json enc_indent ex_osm); vm_compute; reflexivity.
Defined.
